(** * LED-Shot-Tray: the LED strip abstraction layer ([src/strip.cpp])

    A shallow embedding of the pixel buffer, the strip projectors and the
    animation state machines of [strip.cpp], and the properties of the
    specification checked against it.

    Conventions of the embedding.
    - The target is an AVR microcontroller ([<avr/io.h>]): [uint8_t] and
      [uint16_t] are integers modulo 2^8 and 2^16, [int] is a 16 bit two's
      complement integer and [uint16_t] is [unsigned int].  Machine integers
      are values of [Z]; every wrap-around is written out with [wrap8],
      [wrap16] and [to_int].
    - A heap block is the list of its cells.  An access outside the block is
      undefined behaviour in C; the embedding returns [None] there.
      [malloc]/[realloc] are assumed to succeed (the source never checks).
    - The WS2812 driver ([ws2812_prep_tx], [ws2812_tx_byte], [ws2812_end_tx])
      and the timer ([ms_passed], [reset_timer]) are external: the driver calls
      are recorded as a list of [event]s, and the value read from the timer is
      an argument of the function that reads it. *)

From Stdlib Require Import ZArith Lia Bool.
From stdpp Require Import base list sorting.

Local Open Scope Z_scope.

(** ** Machine integers *)

Definition wrap8 (x : Z) : Z := x mod 256.
Definition wrap16 (x : Z) : Z := x mod 65536.

(** Conversion of a 16 bit unsigned value to [int] (two's complement). *)
Definition to_int (x : Z) : Z :=
  let u := wrap16 x in if u <? 32768 then u else u - 65536.

(** ** Data structures ([strip.h]) *)

(** [typedef uint8_t RGB_t[3]], indexed by [R = 0], [G = 1], [B = 2]. *)
Record RGB_t : Type := mkRGB { R : Z; G : Z; B : Z }.

(** The values of [WS2812_COLOR_ORDER]; the choice is made in [config.h]. *)
Inductive color_order : Type := RGB | GRB | BRG | BGR.

(** [rgb[i]] for a channel index [i]. *)
Definition chan (c : RGB_t) (i : Z) : Z :=
  if i =? 0 then R c else if i =? 1 then G c else B c.

Definition WS2812_WIRING_RGB_0 (o : color_order) : Z :=
  match o with RGB => 0 | GRB => 1 | BRG => 2 | BGR => 2 end.
Definition WS2812_WIRING_RGB_1 (o : color_order) : Z :=
  match o with RGB => 1 | GRB => 0 | BRG => 0 | BGR => 1 end.
Definition WS2812_WIRING_RGB_2 (o : color_order) : Z :=
  match o with RGB => 2 | GRB => 2 | BRG => 1 | BGR => 0 end.

(** [const RGB_t off = {0, 0, 0}]. *)
Definition off : RGB_t := mkRGB 0 0 0.

Record pxl : Type := mkpxl { px_pos : Z; px_rgb : RGB_t }.

Record substrp : Type := mksubstrp { ss_length : Z; ss_rgb : RGB_t }.

(** [struct pxbuf { uint16_t size; pxl *buf; }]: the size field and the cells
    of the block [buf] points to ([[]] for [NULL]). *)
Record pxbuf : Type := mkpxbuf { pb_size : Z; pb_buf : list pxl }.

(** Calls into the WS2812 driver and the timer, in the order they are made. *)
Inductive event : Type :=
  | PrepTx
  | TxByte (v : Z)
  | EndTx
  | ResetTimer.

(** ** Heap blocks *)

(** Reading and writing cell [i] of a block. *)
Definition rd {A} (l : list A) (i : Z) : option A :=
  if i <? 0 then None else l !! Z.to_nat i.

Definition wr {A} (l : list A) (i : Z) (x : A) : option (list A) :=
  if (0 <=? i) && (i <? Z.of_nat (length l))
  then Some (<[Z.to_nat i := x]> l) else None.

(** [realloc] to [n] cells: the old cells are kept as far as they fit, the
    new ones hold [junk], an indeterminate value. *)
Definition realloc {A} (junk : A) (l : list A) (n : Z) : list A :=
  take (Z.to_nat n) l ++ replicate (Z.to_nat n - length l)%nat junk.

(** ** The sparse pixel buffer *)

(** [pxbuf_init]. *)
Definition pxbuf_init : pxbuf := mkpxbuf 0 [].

Section PixelBuffer.

(** The content of freshly allocated cells. *)
Variable junk : pxl.

(** [for (j = size-1; j > i; j--) buf[j] = buf[j-1]], [n] iterations left. *)
Fixpoint shift_right (n : nat) (j : Z) (l : list pxl) : option (list pxl) :=
  match n with
  | O => Some l
  | S n' =>
      match rd l (j - 1) with
      | None => None
      | Some p =>
          match wr l j p with
          | None => None
          | Some l' => shift_right n' (j - 1) l'
          end
      end
  end.

(** The body of [pxbuf_insert] when [buf[i].pos > pos]: grow by one cell,
    shift the cells from [i] on and store the pixel at [i]. *)
Definition insert_before (b : pxbuf) (i pos : Z) (rgb : RGB_t) : option pxbuf :=
  let sz := wrap16 (pb_size b + 1) in
  let l := realloc junk (pb_buf b) sz in
  let j := wrap16 (sz - 1) in
  match shift_right (Z.to_nat (j - i)) j l with
  | None => None
  | Some l' =>
      match wr l' i (mkpxl pos rgb) with
      | None => None
      | Some l'' => Some (mkpxbuf sz l'')
      end
  end.

(** The code after the loop of [pxbuf_insert]: append. *)
Definition insert_last (b : pxbuf) (pos : Z) (rgb : RGB_t) : option pxbuf :=
  let sz := wrap16 (pb_size b + 1) in
  let l := realloc junk (pb_buf b) sz in
  match wr l (wrap16 (sz - 1)) (mkpxl pos rgb) with
  | None => None
  | Some l' => Some (mkpxbuf sz l')
  end.

(** [for (i = 0; i < size; i++)] of [pxbuf_insert], [n] iterations left. *)
Fixpoint insert_scan (n : nat) (i : Z) (b : pxbuf) (pos : Z) (rgb : RGB_t)
  : option pxbuf :=
  match n with
  | O => insert_last b pos rgb
  | S n' =>
      match rd (pb_buf b) i with
      | None => None
      | Some p =>
          if px_pos p =? pos then
            match wr (pb_buf b) i (mkpxl (px_pos p) rgb) with
            | None => None
            | Some l => Some (mkpxbuf (pb_size b) l)
            end
          else if px_pos p >? pos then insert_before b i pos rgb
          else insert_scan n' (i + 1) b pos rgb
      end
  end.

Definition pxbuf_insert (b : pxbuf) (pos : Z) (rgb : RGB_t) : option pxbuf :=
  if pb_size b =? 0 then
    match wr [junk] 0 (mkpxl pos rgb) with
    | None => None
    | Some l => Some (mkpxbuf (wrap16 (pb_size b + 1)) l)
    end
  else insert_scan (Z.to_nat (pb_size b)) 0 b pos rgb.

(** [for (i = 0; i < size; i++)] of [pxbuf_exists]. *)
Fixpoint exists_scan (n : nat) (i : Z) (l : list pxl) (pos : Z) : option bool :=
  match n with
  | O => Some false
  | S n' =>
      match rd l i with
      | None => None
      | Some p =>
          if px_pos p =? pos then Some true
          else if px_pos p >? pos then Some false
          else exists_scan n' (i + 1) l pos
      end
  end.

Definition pxbuf_exists (b : pxbuf) (pos : Z) : option bool :=
  exists_scan (Z.to_nat (pb_size b)) 0 (pb_buf b) pos.

(** [for (i = index; i < size; i++) buf[i] = buf[i+1]], [n] iterations left. *)
Fixpoint shift_left (n : nat) (i : Z) (l : list pxl) : option (list pxl) :=
  match n with
  | O => Some l
  | S n' =>
      match rd l (i + 1) with
      | None => None
      | Some p =>
          match wr l i p with
          | None => None
          | Some l' => shift_left n' (i + 1) l'
          end
      end
  end.

Definition pxbuf_remove (b : pxbuf) (index : Z) : option pxbuf :=
  let sz := wrap16 (pb_size b - 1) in
  if sz =? 0 then Some (mkpxbuf sz [])
  else
    match shift_left (Z.to_nat (sz - index)) index (pb_buf b) with
    | None => None
    | Some l => Some (mkpxbuf sz (realloc junk l sz))
    end.

(** [for (i = 0; i < size; i++)] of [pxbuf_remove_at]. *)
Fixpoint remove_at_scan (n : nat) (i : Z) (b : pxbuf) (pos : Z)
  : option (pxbuf * bool) :=
  match n with
  | O => Some (b, false)
  | S n' =>
      match rd (pb_buf b) i with
      | None => None
      | Some p =>
          if px_pos p =? pos then
            match pxbuf_remove b i with
            | None => None
            | Some b' => Some (b', true)
            end
          else if px_pos p >? pos then Some (b, false)
          else remove_at_scan n' (i + 1) b pos
      end
  end.

Definition pxbuf_remove_at (b : pxbuf) (pos : Z) : option (pxbuf * bool) :=
  remove_at_scan (Z.to_nat (pb_size b)) 0 b pos.

End PixelBuffer.

(** Sequences of buffer operations, and the buffers they go through. *)
Inductive pxop : Type :=
  | Insert (pos : Z) (rgb : RGB_t)
  | Remove (index : Z).

Definition apply_op (junk : pxl) (b : pxbuf) (o : pxop) : option pxbuf :=
  match o with
  | Insert pos rgb => pxbuf_insert junk b pos rgb
  | Remove index => pxbuf_remove junk b index
  end.

(** [run_ops junk b ops]: the buffer after each operation of [ops], in order;
    [None] as soon as one operation leaves the allocated block. *)
Fixpoint run_ops (junk : pxl) (b : pxbuf) (ops : list pxop) : option (list pxbuf) :=
  match ops with
  | [] => Some []
  | o :: ops' =>
      match apply_op junk b o with
      | None => None
      | Some b' =>
          match run_ops junk b' ops' with
          | None => None
          | Some t => Some (b' :: t)
          end
      end
  end.

(** What the callers of the buffer guarantee: arguments are [uint16_t] values,
    [pxbuf_remove] is given a buffer that holds a pixel, and [pxbuf_insert] a
    buffer whose [size] can still be incremented. *)
Definition op_pre (b : pxbuf) (o : pxop) : bool :=
  match o with
  | Insert pos _ => (0 <=? pos) && (pos <? 65536) && (pb_size b <? 65535)
  | Remove index => (0 <=? index) && (index <? 65536) && (0 <? pb_size b)
  end.

Fixpoint ops_pre (junk : pxl) (b : pxbuf) (ops : list pxop) : bool :=
  match ops with
  | [] => true
  | o :: ops' =>
      op_pre b o &&
      match apply_op junk b o with
      | None => true
      | Some b' => ops_pre junk b' ops'
      end
  end.

(** The representation invariant of a [pxbuf]: [size] counts the cells. *)
Definition pxbuf_rep (b : pxbuf) : Prop :=
  pb_size b = Z.of_nat (length (pb_buf b)) /\ pb_size b < 65536.

(** Strictly ascending positions: sorted, and no position twice. *)
Definition ascending (l : list pxl) : Prop :=
  StronglySorted (fun p q => px_pos p < px_pos q) l.

Definition pxbuf_sorted (b : pxbuf) : Prop := ascending (pb_buf b).

(** The colour stored for a position, if any. *)
Fixpoint pxbuf_lookup (l : list pxl) (pos : Z) : option RGB_t :=
  match l with
  | [] => None
  | p :: l' => if px_pos p =? pos then Some (px_rgb p) else pxbuf_lookup l' pos
  end.

(** *** List-level descriptions of the two mutators *)

(** Ordered insertion with overwrite, as section 4.1 of the specification
    words it: "if a pixel at pos exists, overwrite its color; else insert
    maintaining ascending-position order". *)
Fixpoint upsert (pos : Z) (rgb : RGB_t) (l : list pxl) : list pxl :=
  match l with
  | [] => [mkpxl pos rgb]
  | p :: l' =>
      if px_pos p =? pos then mkpxl pos rgb :: l'
      else if px_pos p >? pos then mkpxl pos rgb :: p :: l'
      else p :: upsert pos rgb l'
  end.

(** Removal by index; an index past the end removes the last cell, because
    the block is shortened whether or not anything was shifted. *)
Definition remove_index (index : nat) (l : list pxl) : list pxl :=
  delete (Nat.min index (length l - 1)) l.

(** ** Hue rotation *)

(** The guard [rgb[R] != 0 && rgb[G] != 0 && rgb[B] != 0] of the branch of
    [rgb_apply_fade] that corrects an invalid colour. *)
Definition invalid_rgb (c : RGB_t) : bool :=
  negb (R c =? 0) && negb (G c =? 0) && negb (B c =? 0).

(** [rgb_apply_fade]. *)
Definition rgb_apply_fade (rgb : RGB_t) (step_size : Z) : RGB_t :=
  let rgb := if invalid_rgb rgb then mkRGB 255 0 0 else rgb in
  let r2g := (G rgb <? 255) && (B rgb =? 0) in
  let step_size := if step_size =? 0 then 1 else step_size in
  if r2g then
    let tmp := wrap8 (R rgb - step_size) in
    if tmp >? R rgb then mkRGB 0 tmp (wrap8 (255 - tmp))
    else mkRGB tmp (wrap8 (G rgb + step_size)) (B rgb)
  else if G rgb >? 0 then
    let tmp := wrap8 (G rgb - step_size) in
    if tmp >? G rgb then mkRGB (wrap8 (255 - tmp)) 0 tmp
    else mkRGB (R rgb) tmp (wrap8 (B rgb + step_size))
  else
    let tmp := wrap8 (B rgb - step_size) in
    if tmp >? B rgb then mkRGB tmp (wrap8 (255 - tmp)) 0
    else mkRGB (wrap8 (R rgb + step_size)) (G rgb) tmp.

(** The initial value of the [static RGB_t rgb] of the rainbow effects. *)
Definition red : RGB_t := mkRGB 255 0 0.

(** [n] calls of [rgb_apply_fade] on the same object with one step size. *)
Fixpoint fade_n (n : nat) (step_size : Z) (rgb : RGB_t) : RGB_t :=
  match n with
  | O => rgb
  | S n' => fade_n n' step_size (rgb_apply_fade rgb step_size)
  end.

(** The colours after 0, 1, ..., [n-1] calls. *)
Fixpoint fade_orbit (n : nat) (step_size : Z) (rgb : RGB_t) : list RGB_t :=
  match n with
  | O => []
  | S n' => rgb :: fade_orbit n' step_size (rgb_apply_fade rgb step_size)
  end.

(** A call sequence with a step size of its own for every call. *)
Definition fade_steps (steps : list Z) (rgb : RGB_t) : RGB_t :=
  fold_left rgb_apply_fade steps rgb.

(** The colour [strip_scroll_rgb] computes for wheel position [val], before
    the brightness is applied: the position of the hue wheel. *)
Definition scroll_color (val : Z) : RGB_t :=
  let val := val mod 765 in
  if val <? 255 + 1 then mkRGB (wrap8 (255 - val)) (wrap8 val) 0
  else if val <? 2 * 255 + 1 then
    let val := wrap16 (val - 255) in
    mkRGB 0 (wrap8 (255 - val)) (wrap8 val)
  else
    let val := wrap16 (val - 510) in
    mkRGB (wrap8 val) 0 (wrap8 (255 - val)).

Definition RGB_eqb (c d : RGB_t) : bool :=
  (R c =? R d) && (G c =? G d) && (B c =? B d).

(** Executable distinctness of a list of colours. *)
Fixpoint distinct (l : list RGB_t) : bool :=
  match l with
  | [] => true
  | c :: l' => forallb (fun d => negb (RGB_eqb c d)) l' && distinct l'
  end.

(** ** The strip projectors *)

Section Projector.

(** [WS2812_COLOR_ORDER] and the global [strip_size]. *)
Variable order : color_order.
Variable strip_size : Z.

(** The three [ws2812_tx_byte] calls made for one pixel. *)
Definition tx_rgb (rgb : RGB_t) : list event :=
  [ TxByte (chan rgb (WS2812_WIRING_RGB_0 order));
    TxByte (chan rgb (WS2812_WIRING_RGB_1 order));
    TxByte (chan rgb (WS2812_WIRING_RGB_2 order)) ].

(** A loop that sends the same colour [n] times. *)
Fixpoint tx_repeat (n : nat) (rgb : RGB_t) : list event :=
  match n with
  | O => []
  | S n' => tx_rgb rgb ++ tx_repeat n' rgb
  end.

(** [strip_apply_all] (WS2812 strips). *)
Definition strip_apply_all (rgb : RGB_t) : list event :=
  PrepTx :: tx_repeat (Z.to_nat strip_size) rgb ++ [EndTx].

(** The outer loop of [strip_apply_substrpbuf], [n] segments left. *)
Fixpoint substrp_loop (n : nat) (i : Z) (substrps : list substrp)
  : option (list event) :=
  match n with
  | O => Some []
  | S n' =>
      match rd substrps i with
      | None => None
      | Some s =>
          match substrp_loop n' (i + 1) substrps with
          | None => None
          | Some ev => Some (tx_repeat (Z.to_nat (ss_length s)) (ss_rgb s) ++ ev)
          end
      end
  end.

Definition strip_apply_substrpbuf (n_substrps : Z) (substrps : list substrp)
  : option (list event) :=
  match substrp_loop (Z.to_nat n_substrps) 0 substrps with
  | None => None
  | Some ev => Some (PrepTx :: ev ++ [EndTx])
  end.

(** The loop of [strip_distribute_rgb], [n] iterations left; [l] is the
    block of the segment buffer under construction. *)
Fixpoint distribute_loop (n : nat) (i : Z) (rgb : list RGB_t) (size : Z)
  (l : list substrp) : option (list substrp) :=
  match n with
  | O => Some l
  | S n' =>
      let len := strip_size / size in
      let len :=
        if i =? wrap16 (size - 1) then wrap16 (len + strip_size mod size)
        else len in
      match rd rgb i with
      | None => None
      | Some c =>
          match wr l i (mksubstrp len c) with
          | None => None
          | Some l' => distribute_loop n' (i + 1) rgb size l'
          end
      end
  end.

(** The segment buffer [strip_distribute_rgb] builds; [junk] is the content
    of the freshly allocated block. *)
Definition distribute_build (junk : substrp) (rgb : list RGB_t) (size : Z)
  : option (list substrp) :=
  distribute_loop (Z.to_nat size) 0 rgb size (realloc junk [] size).

(** [strip_distribute_rgb]: the buffer built and the driver calls made. *)
Definition strip_distribute_rgb (junk : substrp) (rgb : list RGB_t) (size : Z)
  : option (list substrp * list event) :=
  match distribute_build junk rgb size with
  | None => None
  | Some segs =>
      match strip_apply_substrpbuf size segs with
      | None => None
      | Some ev => Some (segs, ev)
      end
  end.

(** How a bounded unfolding of a loop ended. *)
Inductive status : Type := Returned | Running | Faulted.

(** [for (uint8_t i = 0; i < strip_size; i++)] of [strip_apply_RGBbuf],
    unfolded [fuel] times; [out] are the driver calls made so far. *)
Fixpoint RGBbuf_loop (fuel : nat) (i : Z) (RGBbuf : list RGB_t)
  (out : list event) : status * list event :=
  match fuel with
  | O => (Running, out)
  | S fuel' =>
      if i <? strip_size then
        match rd RGBbuf i with
        | None => (Faulted, out)
        | Some c => RGBbuf_loop fuel' (wrap8 (i + 1)) RGBbuf (out ++ tx_rgb c)
        end
      else (Returned, out)
  end.

Definition strip_apply_RGBbuf (fuel : nat) (RGBbuf : list RGB_t)
  : status * list event :=
  match RGBbuf_loop fuel 0 RGBbuf [PrepTx] with
  | (Returned, out) => (Returned, out ++ [EndTx])
  | r => r
  end.

(** The loop of [strip_apply_pxbuf], [n] physical positions left. *)
Fixpoint pxbuf_loop (n : nat) (i px_i : Z) (b : pxbuf) : option (list event) :=
  match n with
  | O => Some []
  | S n' =>
      if px_i <? pb_size b then
        match rd (pb_buf b) px_i with
        | None => None
        | Some p =>
            if i =? px_pos p then
              match pxbuf_loop n' (i + 1) (wrap16 (px_i + 1)) b with
              | None => None
              | Some ev => Some (tx_rgb (px_rgb p) ++ ev)
              end
            else
              match pxbuf_loop n' (i + 1) px_i b with
              | None => None
              | Some ev => Some ([TxByte 0; TxByte 0; TxByte 0] ++ ev)
              end
        end
      else
        match pxbuf_loop n' (i + 1) px_i b with
        | None => None
        | Some ev => Some ([TxByte 0; TxByte 0; TxByte 0] ++ ev)
        end
  end.

Definition strip_apply_pxbuf (b : pxbuf) : option (list event) :=
  if pb_size b =? 0 then Some (strip_apply_all off)
  else
    match pxbuf_loop (Z.to_nat strip_size) 0 0 b with
    | None => None
    | Some ev => Some (PrepTx :: ev ++ [EndTx])
    end.

(** The walk over the physical positions as section 4.3 of the
    specification words it: [pending] are the sparse pixels not yet
    emitted, [i] the physical position, [n] the positions left. *)
Fixpoint sparse_walk (n : nat) (i : Z) (pending : list pxl) : list event :=
  match n with
  | O => []
  | S n' =>
      match pending with
      | p :: rest =>
          if i =? px_pos p then tx_rgb (px_rgb p) ++ sparse_walk n' (i + 1) rest
          else tx_rgb off ++ sparse_walk n' (i + 1) pending
      | [] => tx_rgb off ++ sparse_walk n' (i + 1) []
      end
  end.




End Projector.



(** ** Brightness fade *)

(** [rgb_apply_brightness].  [brightness * c / 255] is never half way between
    two integers ([2 * brightness * c] is even, [255 * (2k+1)] is odd) but at
    least 1/510 away, far more than the rounding error of the floating point
    product: [round] yields the integer nearest to the exact quotient. *)
Definition rgb_apply_brightness (rgb : RGB_t) (brightness : Z) : RGB_t :=
  if brightness <? 255 then
    mkRGB ((2 * brightness * R rgb + 255) / 510)
          ((2 * brightness * G rgb + 255) / 510)
          ((2 * brightness * B rgb + 255) / 510)
  else rgb.

(** The [static] variables of [rgb_apply_brightness_fade]. *)
Record fade_state : Type := mkfade { inc : bool; brightness : Z }.

(** Their initial values. *)
Definition fade_init : fade_state := mkfade true 0.

(** [rgb_apply_brightness_fade]: the new statics, [rgb_out] and the returned
    [bool].  [brightness] is an [int] and [step_size] an [unsigned int]: the
    sum and the difference are taken modulo 2^16 and converted back. *)
Definition rgb_apply_brightness_fade (st : fade_state) (rgb_in : RGB_t)
  (step_size : Z) (start : bool) : fade_state * RGB_t * bool :=
  let st := if start then mkfade true 0 else st in
  let st' :=
    if inc st then
      let b := to_int (brightness st + step_size) in
      let b := if b >=? 255 then 255 else b in
      mkfade (b <? 255) b
    else
      let b := to_int (brightness st - step_size) in
      let b := if b <? 0 then 0 else b in
      mkfade (b =? 0) b in
  (st', rgb_apply_brightness rgb_in (wrap8 (brightness st')), brightness st' =? 0).

(** [n] further calls with [start = false]: the statics after each call and
    the value each call returns. *)
Fixpoint fade_calls (n : nat) (st : fade_state) (rgb_in : RGB_t) (step_size : Z)
  : list (fade_state * bool) :=
  match n with
  | O => []
  | S n' =>
      let '(st', _, r) := rgb_apply_brightness_fade st rgb_in step_size false in
      (st', r) :: fade_calls n' st' rgb_in step_size
  end.

(** A call sequence: the first call has [start = true], the others
    [start = false]. *)
Definition fade_sequence (n : nat) (st : fade_state) (rgb_in : RGB_t)
  (step_size : Z) : list (fade_state * bool) :=
  match n with
  | O => []
  | S n' =>
      let '(st', _, r) := rgb_apply_brightness_fade st rgb_in step_size true in
      (st', r) :: fade_calls n' st' rgb_in step_size
  end.

(** The number of calls of one ramp: the least [m] with [m * step >= 255]. *)
Definition ramp_calls (step_size : Z) : Z := (254 + step_size) / step_size.

(** The triangle wave of period [2 * ramp_calls step_size]: the brightness
    after call number [k], a ramp up that is cut off at 255 followed by a ramp
    down from 255. *)
Definition triangle (step_size : Z) (k : Z) : Z :=
  let m := ramp_calls step_size in
  let j := k mod (2 * m) in
  if j <=? m then Z.min 255 (j * step_size)
  else 255 - (j - m) * step_size.

(** The statics after call number [j] of a period. *)
Definition wave_state (step_size : Z) (j : Z) : fade_state :=
  let m := ramp_calls step_size in
  if j <? m then mkfade true (j * step_size)
  else mkfade false (255 - (j - m) * step_size).

(** ** The segments of [strip_distribute_rgb], as the specification words
    them: every run has length [L / N], the last one [L / N + L mod N]. *)
Definition segment_length (L N : Z) (i : Z) : Z :=
  if i =? N - 1 then L / N + L mod N else L / N.

Definition segments (L : Z) (rgb : list RGB_t) : list substrp :=
  imap (fun i c => mksubstrp (segment_length L (Z.of_nat (length rgb)) (Z.of_nat i)) c)
       rgb.

(** The number of pixels a segment buffer paints. *)
Fixpoint painted (segs : list substrp) : Z :=
  match segs with
  | [] => 0
  | s :: segs' => ss_length s + painted segs'
  end.

(** The driver calls of a segment buffer between begin and end. *)
Definition segment_bytes (order : color_order) (segs : list substrp) : list event :=
  concat ((fun s => tx_repeat order (Z.to_nat (ss_length s)) (ss_rgb s)) <$> segs).

(** The states of the hue wheel: the channels add up to 255 and one of them
    is dark. *)
Definition on_wheel (c : RGB_t) : Prop :=
  (0 <= R c /\ 0 <= G c /\ 0 <= B c) /\
  R c + G c + B c = 255 /\
  (R c = 0 \/ G c = 0 \/ B c = 0).

(** ** Further list-level descriptions *)

(** Removal of the pixel stored for [pos], if there is one. *)
Fixpoint delete_pos (pos : Z) (l : list pxl) : list pxl :=
  match l with
  | [] => []
  | p :: l' => if px_pos p =? pos then l' else p :: delete_pos pos l'
  end.

(** The position the hue wheel is at after one call of [rgb_apply_fade] with
    [step_size] at position [k]: [step_size] further, but one less when the
    step passes a corner of the wheel (a multiple of 255). *)
Definition wheel_advance (k step_size : Z) : Z :=
  let s := if step_size =? 0 then 1 else step_size in
  if k mod 255 + s <=? 255 then k + s else k + s - 1.

(** ** Further functions of [strip.cpp] *)

Section Effects.

Variable order : color_order.
Variable strip_size : Z.

(** [strip_scroll_rgb]. *)
Definition strip_scroll_rgb (val brightness : Z) : list event :=
  strip_apply_all order strip_size (rgb_apply_brightness (scroll_color val) brightness).

(** The loop of [strip_rotate_rainbow], [n] pixels left. *)
Fixpoint rotate_loop (n : nat) (step_size : Z) (tmp : RGB_t) : list event :=
  match n with
  | O => []
  | S n' => tx_rgb order tmp ++ rotate_loop n' step_size (rgb_apply_fade tmp step_size)
  end.

(** [strip_rotate_rainbow]: [rgb] is the [static RGB_t rgb], [ms] the value
    of [ms_passed()]; the result is the new [rgb] and the calls made. *)
Definition strip_rotate_rainbow (step_size delay_ms ms : Z) (rgb : RGB_t)
  : RGB_t * list event :=
  if ms <? delay_ms then (rgb, [])
  else
    let rgb := rgb_apply_fade rgb step_size in
    (rgb, PrepTx :: rotate_loop (Z.to_nat strip_size) step_size rgb
                 ++ [EndTx; ResetTimer]).

(** [strip_fade]: [st] are the statics of [rgb_apply_brightness_fade], [ms]
    the value of [ms_passed()]; the result is the new statics, the returned
    [bool] and the calls made. *)
Definition strip_fade (st : fade_state) (rgb : RGB_t) (delay_ms step_size : Z)
  (start : bool) (ms : Z) : fade_state * bool * list event :=
  if ms <=? delay_ms then (st, false, [])
  else
    let '(st', rgb_out, ret) :=
      if start then rgb_apply_brightness_fade st rgb step_size true
      else rgb_apply_brightness_fade st rgb step_size false in
    (st', ret, strip_apply_all order strip_size rgb_out ++ [ResetTimer]).

(** Successive calls of [strip_fade] with [start = false], one per timer
    reading: the statics after the last call. *)
Fixpoint strip_fade_calls (st : fade_state) (rgb : RGB_t) (delay_ms step_size : Z)
  (mss : list Z) : fade_state :=
  match mss with
  | [] => st
  | ms :: mss' =>
      let '(st', _, _) := strip_fade st rgb delay_ms step_size false ms in
      strip_fade_calls st' rgb delay_ms step_size mss'
  end.

(** *** The rain effect *)

(** The content of freshly allocated cells of the droplet buffer. *)
Variable junk : pxl.

(** [if (c != 0) c--] on one channel. *)
Definition decay_channel (v : Z) : Z := if v =? 0 then v else wrap8 (v - 1).

Definition decay_rgb (c : RGB_t) : RGB_t :=
  mkRGB (decay_channel (R c)) (decay_channel (G c)) (decay_channel (B c)).

Definition is_black (c : RGB_t) : bool :=
  (R c =? 0) && (G c =? 0) && (B c =? 0).

(** The first loop of [strip_rain], [for (i = 0; i < pxbuf.size; i++)], with
    [n] iterations allowed; [pxbuf.size] is read again before every
    iteration. *)
Fixpoint rain_decay (n : nat) (i : Z) (t_passed : bool) (b : pxbuf) : option pxbuf :=
  if i <? pb_size b then
    match n with
    | O => None
    | S n' =>
        match rd (pb_buf b) i with
        | None => None
        | Some p =>
            if is_black (px_rgb p) then
              match pxbuf_remove junk b i with
              | None => None
              | Some b' => rain_decay n' (wrap16 (i + 1)) t_passed b'
              end
            else if t_passed then
              match wr (pb_buf b) i (mkpxl (px_pos p) (decay_rgb (px_rgb p))) with
              | None => None
              | Some l =>
                  rain_decay n' (wrap16 (i + 1)) t_passed (mkpxbuf (pb_size b) l)
              end
            else rain_decay n' (wrap16 (i + 1)) t_passed b
        end
    end
  else Some b.

(** [strip_rain]: the statics are the droplet buffer and [wait_until];
    [ms1] .. [ms4] are the values of the four [ms_passed()] calls and [rand1],
    [rand2] those of the two [rand()] calls, in the order of the source (a
    value is not used when its call is not made).  A remainder by 0 has no
    result. *)
Definition strip_rain (rgb : RGB_t)
  (max_drops min_t_appart max_t_appart delay : Z)
  (ms1 ms2 ms3 ms4 rand1 rand2 : Z) (b : pxbuf) (wait_until : Z)
  : option (pxbuf * Z * list event) :=
  let t_passed := ms1 >=? wait_until in
  match rain_decay (Z.to_nat (pb_size b)) 0 t_passed b with
  | None => None
  | Some b1 =>
      let wait_until := if t_passed then wrap16 (ms2 + delay) else wait_until in
      let span := wrap16 (wrap16 (max_t_appart - min_t_appart) + 1) in
      if span =? 0 then None
      else
        let t_passed := ms3 >=? wrap16 (rand1 mod span + min_t_appart) in
        if t_passed && (pb_size b1 <? max_drops) then
          if strip_size =? 0 then None
          else
            let pos := rand2 mod strip_size in
            match pxbuf_exists b1 pos with
            | None => None
            | Some true =>
                match strip_apply_pxbuf order strip_size b1 with
                | None => None
                | Some ev => Some (b1, wait_until, ev)
                end
            | Some false =>
                match pxbuf_insert junk b1 pos rgb with
                | None => None
                | Some b2 =>
                    let ms := wrap16 ms4 in
                    let wait_until :=
                      if ms <? wait_until then wrap16 (wait_until - ms) else 0 in
                    match strip_apply_pxbuf order strip_size b2 with
                    | None => None
                    | Some ev => Some (b2, wait_until, ResetTimer :: ev)
                    end
                end
            end
        else
          match strip_apply_pxbuf order strip_size b1 with
          | None => None
          | Some ev => Some (b1, wait_until, ev)
          end
  end.

End Effects.

(** The number of timer readings that let a call of [strip_fade] through. *)
Definition accepted (delay_ms : Z) (mss : list Z) : nat :=
  length (filter (fun ms => delay_ms < ms) mss).

(** Channel-wise comparison of two colours. *)
Definition rgb_le (c d : RGB_t) : Prop :=
  R c <= R d /\ G c <= G d /\ B c <= B d.

(** The range of a colour whose channels are [uint8_t] values. *)
Definition rgb_valid (c : RGB_t) : Prop :=
  0 <= R c <= 255 /\ 0 <= G c <= 255 /\ 0 <= B c <= 255.

(** The droplet positions that lie on a strip of [L] pixels. *)
Definition in_strip (L : Z) (l : list pxl) : Prop :=
  Forall (fun p => 0 <= px_pos p < L) l.

(** A droplet after one decay step. *)
Definition decay_pxl (p : pxl) : pxl := mkpxl (px_pos p) (decay_rgb (px_rgb p)).

(** What the first loop of [strip_rain] does to the droplets, front to back:
    a black droplet is removed, and the droplet that moves into its cell is
    passed over in this call; any other droplet is decayed when the decay
    interval has passed. *)
Fixpoint decay_list (t_passed : bool) (l : list pxl) : list pxl :=
  match l with
  | [] => []
  | p :: rest =>
      if is_black (px_rgb p) then
        match rest with
        | [] => []
        | q :: rest' => q :: decay_list t_passed rest'
        end
      else (if t_passed then decay_pxl p else p) :: decay_list t_passed rest
  end.

(* ================================================================== *)
(** * Properties *)
(* ================================================================== *)

(** ** Hue rotation *)

Lemma wrap8_small x : 0 <= x < 256 -> wrap8 x = x.
Proof. intros H. unfold wrap8. apply Z.mod_small. lia. Qed.

Lemma wrap16_small x : 0 <= x < 65536 -> wrap16 x = x.
Proof. intros H. unfold wrap16. apply Z.mod_small. lia. Qed.

Lemma wrap8_borrow x : -256 <= x < 0 -> wrap8 x = x + 256.
Proof.
  intros H. unfold wrap8.
  symmetry. apply (Z.mod_unique x 256 (-1) (x + 256)); lia.
Qed.

Ltac wrap8_cases e :=
  let H := fresh "Hw" in
  destruct (Z_lt_le_dec e 0) as [H | H];
  [ rewrite (wrap8_borrow e) in * by lia
  | rewrite (wrap8_small e) in * by lia ].

Lemma rgb_apply_fade_on_wheel c s :
  on_wheel c -> 0 <= s <= 255 -> on_wheel (rgb_apply_fade c s).
Proof.
  intros [(Hr & Hg & Hb) [Hsum Hz]] Hs.
  unfold rgb_apply_fade.
  assert (Hvalid : invalid_rgb c = false).
  { unfold invalid_rgb. destruct Hz as [-> | [-> | ->]]; simpl;
      rewrite ?andb_false_r; reflexivity. }
  rewrite Hvalid. cbv zeta.
  set (st := if s =? 0 then 1 else s).
  assert (Hst : 1 <= st <= 255) by (subst st; destruct (Z.eqb_spec s 0); lia).
  clearbody st.
  destruct (Z.ltb_spec (G c) 255) as [HG | HG];
    destruct (Z.eqb_spec (B c) 0) as [HB | HB]; simpl andb; cbv iota.
  - wrap8_cases (R c - st).
    + destruct (Z.gtb_spec (R c - st + 256) (R c)); [| lia].
      unfold on_wheel; simpl. rewrite wrap8_small by lia. lia.
    + destruct (Z.gtb_spec (R c - st) (R c)); [lia |].
      unfold on_wheel; simpl. rewrite wrap8_small by lia. lia.
  - destruct (Z.gtb_spec (G c) 0) as [HG0 | HG0].
    + wrap8_cases (G c - st).
      * destruct (Z.gtb_spec (G c - st + 256) (G c)); [| lia].
        unfold on_wheel; simpl. rewrite wrap8_small by lia. lia.
      * destruct (Z.gtb_spec (G c - st) (G c)); [lia |].
        unfold on_wheel; simpl. rewrite wrap8_small by lia. lia.
    + wrap8_cases (B c - st).
      * destruct (Z.gtb_spec (B c - st + 256) (B c)); [| lia].
        unfold on_wheel; simpl. rewrite wrap8_small by lia. lia.
      * destruct (Z.gtb_spec (B c - st) (B c)); [lia |].
        unfold on_wheel; simpl. rewrite wrap8_small by lia. lia.
  - destruct (Z.gtb_spec (G c) 0) as [HG0 | HG0]; [| lia].
    wrap8_cases (G c - st).
    + destruct (Z.gtb_spec (G c - st + 256) (G c)); [| lia].
      unfold on_wheel; simpl. rewrite wrap8_small by lia. lia.
    + destruct (Z.gtb_spec (G c - st) (G c)); [lia |].
      unfold on_wheel; simpl. rewrite wrap8_small by lia. lia.
  - destruct (Z.gtb_spec (G c) 0) as [HG0 | HG0]; [| lia].
    wrap8_cases (G c - st).
    + destruct (Z.gtb_spec (G c - st + 256) (G c)); [| lia].
      unfold on_wheel; simpl. rewrite wrap8_small by lia. lia.
    + destruct (Z.gtb_spec (G c - st) (G c)); [lia |].
      unfold on_wheel; simpl. rewrite wrap8_small by lia. lia.
Qed.

Lemma on_wheel_valid c : on_wheel c -> invalid_rgb c = false.
Proof.
  intros [_ [_ Hz]]. unfold invalid_rgb.
  destruct Hz as [-> | [-> | ->]]; simpl; rewrite ?andb_false_r; reflexivity.
Qed.

Lemma red_on_wheel : on_wheel red.
Proof. unfold on_wheel, red; simpl. lia. Qed.

Lemma fade_steps_on_wheel steps c :
  on_wheel c -> Forall (fun s => 0 <= s <= 255) steps ->
  on_wheel (fade_steps steps c).
Proof.
  intros Hc Hs. revert c Hc.
  induction Hs as [| s steps Hs _ IH]; intros c Hc; simpl.
  - exact Hc.
  - apply IH. apply rgb_apply_fade_on_wheel; assumption.
Qed.

(** C10.  Every colour reached from (255,0,0) by calls of [rgb_apply_fade]
    with arbitrary [uint8_t] step sizes has channels that add up to exactly
    255 and has a channel that is 0, so that the guard of the branch that
    resets an invalid colour is false on it. *)
Theorem fade_reachable_sum_255 (steps : list Z) :
  Forall (fun s => 0 <= s <= 255) steps ->
  R (fade_steps steps red) + G (fade_steps steps red) + B (fade_steps steps red) = 255 /\
  (R (fade_steps steps red) = 0 \/ G (fade_steps steps red) = 0 \/
   B (fade_steps steps red) = 0) /\
  invalid_rgb (fade_steps steps red) = false.
Proof.
  intros Hs.
  pose proof (fade_steps_on_wheel steps red red_on_wheel Hs) as Hw.
  pose proof (on_wheel_valid _ Hw) as Hv.
  destruct Hw as [_ [Hsum Hz]]. auto.
Qed.

Lemma fade_reachable_sum_255_witness :
  R (fade_steps [1; 255; 0; 77; 200] red) + G (fade_steps [1; 255; 0; 77; 200] red)
    + B (fade_steps [1; 255; 0; 77; 200] red) = 255 /\
  (R (fade_steps [1; 255; 0; 77; 200] red) = 0 \/
   G (fade_steps [1; 255; 0; 77; 200] red) = 0 \/
   B (fade_steps [1; 255; 0; 77; 200] red) = 0) /\
  invalid_rgb (fade_steps [1; 255; 0; 77; 200] red) = false.
Proof.
  apply (fade_reachable_sum_255 [1; 255; 0; 77; 200]).
  repeat constructor; lia.
Defined.

Lemma RGB_eqb_eq c d : RGB_eqb c d = true <-> c = d.
Proof.
  unfold RGB_eqb. destruct c as [r g b], d as [r' g' b']; simpl.
  rewrite !andb_true_iff, !Z.eqb_eq. split.
  - intros [[-> ->] ->]. reflexivity.
  - intros [= -> -> ->]. auto.
Qed.

Lemma distinct_NoDup l : distinct l = true -> NoDup l.
Proof.
  induction l as [| c l IH]; simpl; intros H.
  - constructor.
  - apply andb_true_iff in H as [Hc Hl].
    constructor; [| auto].
    intros Hin. rewrite forallb_forall in Hc.
    apply list_elem_of_In in Hin. specialize (Hc c Hin).
    apply negb_true_iff in Hc.
    assert (RGB_eqb c c = true) by (apply RGB_eqb_eq; reflexivity).
    congruence.
Qed.

(** One call with step size 1 moves the colour of wheel position [k] to the
    colour of position [k + 1]; checked position by position. *)
Lemma fade_step_on_wheel_checked :
  forallb (fun k => RGB_eqb (rgb_apply_fade (scroll_color (Z.of_nat k)) 1)
                            (scroll_color (Z.of_nat (S k))))
          (seq 0 765) = true.
Proof. vm_compute. reflexivity. Qed.

Lemma fade_step_on_wheel (k : nat) :
  (k < 765)%nat ->
  rgb_apply_fade (scroll_color (Z.of_nat k)) 1 = scroll_color (Z.of_nat (S k)).
Proof.
  intros Hk. apply RGB_eqb_eq.
  pose proof fade_step_on_wheel_checked as H.
  rewrite forallb_forall in H. apply (H k).
  apply in_seq. lia.
Qed.

Lemma fade_orbit_wheel (n k : nat) :
  (k + n <= 765)%nat ->
  fade_orbit n 1 (scroll_color (Z.of_nat k)) =
  map (fun j => scroll_color (Z.of_nat j)) (seq k n).
Proof.
  revert k. induction n as [| n IH]; intros k Hk; simpl.
  - reflexivity.
  - f_equal. rewrite fade_step_on_wheel by lia. apply IH. lia.
Qed.

Lemma fade_n_wheel (n k : nat) :
  (k + n <= 765)%nat ->
  fade_n n 1 (scroll_color (Z.of_nat k)) = scroll_color (Z.of_nat (k + n)).
Proof.
  revert k. induction n as [| n IH]; intros k Hk; simpl.
  - f_equal. f_equal. lia.
  - rewrite fade_step_on_wheel by lia. rewrite IH by lia.
    f_equal. f_equal. lia.
Qed.

Lemma wheel_positions_distinct :
  distinct (map (fun j => scroll_color (Z.of_nat j)) (seq 0 765)) = true.
Proof. vm_compute. reflexivity. Qed.

(** C2.  From (255,0,0), 765 calls of [rgb_apply_fade] with step size 1 lead
    back to exactly (255,0,0); the colours before call 0, 1, ..., 764 are the
    765 positions of the hue wheel in their order, each one once. *)
Theorem fade_period_765 :
  fade_n 765 1 red = red /\
  fade_orbit 765 1 red = map (fun k => scroll_color (Z.of_nat k)) (seq 0 765) /\
  NoDup (fade_orbit 765 1 red).
Proof.
  assert (Hred : red = scroll_color (Z.of_nat 0)) by reflexivity.
  assert (Horbit : fade_orbit 765 1 red =
                   map (fun k => scroll_color (Z.of_nat k)) (seq 0 765)).
  { rewrite Hred at 1. apply fade_orbit_wheel. lia. }
  split; [| split].
  - rewrite Hred at 1. rewrite fade_n_wheel by lia. reflexivity.
  - exact Horbit.
  - rewrite Horbit. apply distinct_NoDup, wheel_positions_distinct.
Qed.

(** ** Heap blocks *)

Section Blocks.
Context {A : Type}.
Implicit Types (l pre suf : list A) (x y : A).

Lemma rd_middle pre x suf :
  rd (pre ++ x :: suf) (Z.of_nat (length pre)) = Some x.
Proof.
  unfold rd. destruct (Z.ltb_spec (Z.of_nat (length pre)) 0); [lia |].
  rewrite Nat2Z.id. by apply list_lookup_middle.
Qed.

Lemma wr_middle pre x suf y :
  wr (pre ++ x :: suf) (Z.of_nat (length pre)) y = Some (pre ++ y :: suf).
Proof.
  unfold wr. rewrite length_app. simpl length.
  destruct (Z.leb_spec 0 (Z.of_nat (length pre))); [| lia].
  destruct (Z.ltb_spec (Z.of_nat (length pre))
              (Z.of_nat (length pre + S (length suf)))); [| lia].
  simpl. f_equal. rewrite Nat2Z.id.
  replace (length pre) with (length pre + 0)%nat at 1 by lia.
  by rewrite insert_app_r.
Qed.

Lemma rd_at l pre x suf i :
  l = pre ++ x :: suf -> i = Z.of_nat (length pre) -> rd l i = Some x.
Proof. intros -> ->. apply rd_middle. Qed.

Lemma wr_at l pre x suf i y :
  l = pre ++ x :: suf -> i = Z.of_nat (length pre) ->
  wr l i y = Some (pre ++ y :: suf).
Proof. intros -> ->. apply wr_middle. Qed.

Lemma rd_outside l i : Z.of_nat (length l) <= i -> rd l i = None.
Proof.
  intros H. unfold rd. destruct (Z.ltb_spec i 0); [done |].
  apply lookup_ge_None. lia.
Qed.

Lemma wr_outside l i x : Z.of_nat (length l) <= i -> wr l i x = None.
Proof.
  intros H. unfold wr.
  destruct (Z.ltb_spec i (Z.of_nat (length l))); [lia |].
  by rewrite andb_false_r.
Qed.

Lemma realloc_grow junk l : realloc junk l (Z.of_nat (length l) + 1) = l ++ [junk].
Proof.
  unfold realloc.
  replace (Z.to_nat (Z.of_nat (length l) + 1)) with (S (length l)) by lia.
  rewrite take_ge by lia.
  replace (S (length l) - length l)%nat with 1%nat by lia. done.
Qed.

Lemma realloc_shrink junk l n :
  0 <= n <= Z.of_nat (length l) -> realloc junk l n = take (Z.to_nat n) l.
Proof.
  intros H. unfold realloc.
  replace (Z.to_nat n - length l)%nat with 0%nat by lia.
  simpl. by rewrite app_nil_r.
Qed.

End Blocks.

(** ** The sparse pixel buffer *)

(** The shift loop of [pxbuf_insert] moves the cells [mid] one cell up, into
    the free cell that follows them. *)
Lemma shift_right_spec (mid : list pxl) : forall pre y tail,
  exists z,
    shift_right (length mid) (Z.of_nat (length pre + length mid))
                (pre ++ mid ++ y :: tail)
    = Some (pre ++ z :: mid ++ tail).
Proof.
  induction mid as [| m mid IH] using rev_ind; intros pre y tail.
  - exists y. simpl. done.
  - rewrite length_app. simpl length.
    replace (length mid + 1)%nat with (S (length mid)) by lia.
    simpl shift_right.
    rewrite (rd_at _ (pre ++ mid) m (y :: tail));
      [| by rewrite <- !app_assoc | rewrite length_app; lia].
    rewrite (wr_at _ (pre ++ mid ++ [m]) y tail);
      [| by rewrite <- !app_assoc | rewrite !length_app; simpl; lia].
    destruct (IH pre m (m :: tail)) as [z Hz].
    exists z.
    replace (Z.of_nat (length pre + S (length mid)) - 1)
      with (Z.of_nat (length pre + length mid)) by lia.
    replace ((pre ++ mid ++ [m]) ++ m :: tail)
      with (pre ++ mid ++ m :: m :: tail)
      by (by rewrite <- !app_assoc).
    rewrite Hz. by rewrite <- !app_assoc.
Qed.

(** The shift loop of [pxbuf_remove] moves the cells [mid] one cell down,
    over the cell in front of them. *)
Lemma shift_left_spec (mid : list pxl) : forall pre x,
  exists z,
    shift_left (length mid) (Z.of_nat (length pre)) (pre ++ x :: mid)
    = Some (pre ++ mid ++ [z]).
Proof.
  induction mid as [| m mid IH]; intros pre x.
  - exists x. done.
  - simpl shift_left.
    rewrite (rd_at _ (pre ++ [x]) m mid);
      [| by rewrite <- app_assoc | rewrite length_app; simpl; lia].
    rewrite (wr_at _ pre x (m :: mid)); [| done | done].
    destruct (IH (pre ++ [m]) m) as [z Hz]. exists z.
    replace (Z.of_nat (length pre) + 1)
      with (Z.of_nat (length (pre ++ [m]))) by (rewrite length_app; simpl; lia).
    replace (pre ++ m :: m :: mid) with ((pre ++ [m]) ++ m :: mid)
      by (by rewrite <- app_assoc).
    rewrite Hz. by rewrite <- !app_assoc.
Qed.

(** *** Ordered insertion on lists *)

Lemma upsert_length_le pos rgb l : (length (upsert pos rgb l) <= S (length l))%nat.
Proof.
  induction l as [| p l IH]; simpl; [lia |].
  destruct (px_pos p =? pos); simpl; [lia |].
  destruct (px_pos p >? pos); simpl; lia.
Qed.

Lemma upsert_length_color pos c c' l :
  length (upsert pos c l) = length (upsert pos c' l).
Proof.
  induction l as [| p l IH]; simpl; [done |].
  destruct (px_pos p =? pos); simpl; [done |].
  destruct (px_pos p >? pos); simpl; [done | by rewrite IH].
Qed.

(** A second insertion at the same position replaces the first one. *)
Lemma upsert_upsert pos c c' l :
  upsert pos c' (upsert pos c l) = upsert pos c' l.
Proof.
  induction l as [| p l IH]; simpl.
  - by rewrite Z.eqb_refl.
  - destruct (px_pos p =? pos) eqn:He; simpl.
    + by rewrite Z.eqb_refl.
    + destruct (px_pos p >? pos) eqn:Hg; simpl.
      * by rewrite Z.eqb_refl.
      * by rewrite He, Hg, IH.
Qed.

Lemma upsert_lookup_eq pos c l :
  pxbuf_lookup (upsert pos c l) pos = Some c.
Proof.
  induction l as [| p l IH]; simpl.
  - by rewrite Z.eqb_refl.
  - destruct (px_pos p =? pos) eqn:He; simpl.
    + by rewrite Z.eqb_refl.
    + destruct (px_pos p >? pos) eqn:Hg; simpl.
      * by rewrite Z.eqb_refl.
      * by rewrite He.
Qed.

Lemma upsert_Forall_above q pos c l :
  px_pos q < pos ->
  Forall (fun p => px_pos q < px_pos p) l ->
  Forall (fun p => px_pos q < px_pos p) (upsert pos c l).
Proof.
  intros Hq. induction 1 as [| p l Hp Hl IH]; simpl.
  - by constructor.
  - destruct (px_pos p =? pos); [by constructor |].
    destruct (px_pos p >? pos); by repeat constructor.
Qed.

Lemma upsert_ascending pos c l : ascending l -> ascending (upsert pos c l).
Proof.
  unfold ascending. induction 1 as [| p l Hl IH Hp]; simpl.
  - repeat constructor.
  - destruct (Z.eqb_spec (px_pos p) pos) as [He | He].
    + constructor; [done |]. by rewrite <- He.
    + destruct (Z.gtb_spec (px_pos p) pos) as [Hg | Hg].
      * constructor; [by constructor |].
        constructor; [simpl; lia |].
        eapply Forall_impl; [exact Hp |]. simpl. intros q Hq. lia.
      * constructor; [done |].
        apply upsert_Forall_above; [lia | done].
Qed.

Lemma remove_index_ascending i l : ascending l -> ascending (remove_index i l).
Proof.
  unfold ascending, remove_index.
  generalize (Nat.min i (length l - 1)) as k. clear i.
  intros k H. revert k. induction H as [| p l Hl IH Hp]; intros k.
  - destruct k; simpl; constructor.
  - destruct k as [| k]; simpl; [done |].
    constructor; [apply IH |]. by apply Forall_delete.
Qed.

Lemma ascending_NoDup l : ascending l -> NoDup (px_pos <$> l).
Proof.
  unfold ascending. induction 1 as [| p l Hl IH Hp]; simpl.
  - constructor.
  - apply NoDup_cons. split; [| done].
    intros Hin. apply list_elem_of_fmap in Hin as (q & Hq & Hin).
    rewrite Forall_forall in Hp. specialize (Hp q Hin). lia.
Qed.

(** *** The mutators against their list-level descriptions *)

(** The scan of [pxbuf_insert], started at cell [length pre] with the cells
    [suf] still to visit, performs the ordered insertion on [suf]. *)
Lemma insert_scan_spec junk pos rgb (suf : list pxl) : forall pre b,
  pb_buf b = pre ++ suf ->
  pb_size b = Z.of_nat (length (pre ++ suf)) ->
  Z.of_nat (length (pre ++ upsert pos rgb suf)) < 65536 ->
  insert_scan junk (length suf) (Z.of_nat (length pre)) b pos rgb =
  Some (mkpxbuf (Z.of_nat (length (pre ++ upsert pos rgb suf)))
                (pre ++ upsert pos rgb suf)).
Proof.
  induction suf as [| p suf IH]; intros pre b Hbuf Hsize Hfit.
  - simpl in *. unfold insert_last. rewrite Hbuf, Hsize.
    rewrite app_nil_r in *. rewrite length_app in Hfit. simpl in Hfit.
    rewrite (wrap16_small (_ + 1)) by lia.
    rewrite realloc_grow.
    rewrite (wr_at _ pre junk []); [| done | rewrite wrap16_small; lia].
    do 2 f_equal. rewrite length_app. simpl. lia.
  - simpl insert_scan. simpl upsert in *.
    rewrite (rd_at _ pre p suf) by done.
    destruct (Z.eqb_spec (px_pos p) pos) as [He | He].
    + rewrite (wr_at _ pre p suf) by done.
      rewrite Hsize, He. do 2 f_equal. rewrite !length_app. done.
    + destruct (px_pos p >? pos).
      * unfold insert_before. rewrite Hbuf, Hsize.
        assert (Hn : Z.of_nat (length (pre ++ p :: suf)) + 1 < 65536)
          by (rewrite !length_app in *; simpl in *; lia).
        rewrite (wrap16_small (_ + 1)) by lia.
        rewrite realloc_grow.
        rewrite (wrap16_small (_ - 1)) by lia.
        replace (Z.to_nat (Z.of_nat (length (pre ++ p :: suf)) + 1 - 1
                           - Z.of_nat (length pre)))
          with (length (p :: suf)) by (rewrite length_app; simpl; lia).
        replace (Z.of_nat (length (pre ++ p :: suf)) + 1 - 1)
          with (Z.of_nat (length pre + length (p :: suf)))
          by (rewrite length_app; simpl; lia).
        rewrite <- app_assoc.
        destruct (shift_right_spec (p :: suf) pre junk []) as [z ->].
        rewrite (wr_at _ pre z ((p :: suf) ++ [])) by done.
        rewrite app_nil_r. do 2 f_equal. rewrite !length_app. simpl. lia.
      * replace (Z.of_nat (length pre) + 1)
          with (Z.of_nat (length (pre ++ [p])))
          by (rewrite length_app; simpl; lia).
        rewrite (IH (pre ++ [p]) b).
        -- rewrite <- !app_assoc. done.
        -- rewrite <- app_assoc. done.
        -- rewrite <- app_assoc. done.
        -- rewrite <- app_assoc. done.
Qed.

Lemma pxbuf_insert_spec junk b pos rgb :
  pxbuf_rep b ->
  Z.of_nat (length (upsert pos rgb (pb_buf b))) < 65536 ->
  pxbuf_insert junk b pos rgb =
  Some (mkpxbuf (Z.of_nat (length (upsert pos rgb (pb_buf b))))
                (upsert pos rgb (pb_buf b))).
Proof.
  intros [Hsize Hmax] Hfit. unfold pxbuf_insert.
  destruct (Z.eqb_spec (pb_size b) 0) as [H0 | H0].
  - assert (Hnil : pb_buf b = []).
    { destruct (pb_buf b); [done | simpl in Hsize; lia]. }
    rewrite Hnil, H0. reflexivity.
  - rewrite Hsize at 1. rewrite Nat2Z.id.
    apply (insert_scan_spec junk pos rgb (pb_buf b) [] b); done.
Qed.

Lemma pxbuf_insert_rep junk b pos rgb :
  pxbuf_rep b -> pb_size b < 65535 ->
  exists b',
    pxbuf_insert junk b pos rgb = Some b' /\
    pb_buf b' = upsert pos rgb (pb_buf b) /\
    pxbuf_rep b'.
Proof.
  intros Hrep Hmax.
  pose proof (upsert_length_le pos rgb (pb_buf b)) as Hle.
  destruct Hrep as [Hsize Hlt].
  assert (Hfit : Z.of_nat (length (upsert pos rgb (pb_buf b))) < 65536) by lia.
  eexists. split; [apply pxbuf_insert_spec; [by split | done] |].
  split; [done |]. split; simpl; [done | lia].
Qed.

(** The limit of the [uint16_t] size field: with 65535 pixels stored, an
    insertion past the last one increments [size] to 0, shrinks the block to
    nothing and writes to cell 65535 of it.  (Such a buffer takes 320 KB, more
    than the address space of the target.) *)
Lemma insert_scan_full junk pos rgb (suf : list pxl) : forall pre b,
  pb_buf b = pre ++ suf -> pb_size b = 65535 ->
  Forall (fun p => px_pos p < pos) suf ->
  insert_scan junk (length suf) (Z.of_nat (length pre)) b pos rgb = None.
Proof.
  induction suf as [| p suf IH]; intros pre b Hbuf Hsize Hlt.
  - simpl. unfold insert_last. rewrite Hsize.
    change (wrap16 (65535 + 1)) with 0. change (wrap16 (0 - 1)) with 65535.
    rewrite wr_outside; [done |].
    unfold realloc. rewrite length_app, length_take, length_replicate. simpl. lia.
  - apply Forall_cons in Hlt as [Hp Hlt].
    simpl insert_scan. rewrite (rd_at _ pre p suf) by done.
    destruct (Z.eqb_spec (px_pos p) pos); [lia |].
    destruct (Z.gtb_spec (px_pos p) pos); [lia |].
    replace (Z.of_nat (length pre) + 1) with (Z.of_nat (length (pre ++ [p])))
      by (rewrite length_app; simpl; lia).
    apply IH; [by rewrite <- app_assoc | done | done].
Qed.

Lemma pxbuf_insert_full junk b pos rgb :
  pxbuf_rep b -> pb_size b = 65535 ->
  Forall (fun p => px_pos p < pos) (pb_buf b) ->
  pxbuf_insert junk b pos rgb = None.
Proof.
  intros [Hsize _] Hfull Hlt. unfold pxbuf_insert.
  rewrite Hfull at 1. simpl Z.eqb. cbv iota.
  rewrite Hsize, Nat2Z.id.
  by apply (insert_scan_full junk pos rgb (pb_buf b) [] b).
Qed.

(** After an ordered insertion at [pos], the scan of [pxbuf_exists] stops at
    the inserted pixel. *)
Lemma exists_scan_upsert pos c (suf : list pxl) : forall pre,
  exists_scan (length (upsert pos c suf)) (Z.of_nat (length pre))
              (pre ++ upsert pos c suf) pos = Some true.
Proof.
  induction suf as [| p suf IH]; intros pre.
  - simpl. rewrite (rd_at _ pre (mkpxl pos c) []) by done.
    simpl. by rewrite Z.eqb_refl.
  - simpl upsert.
    destruct (Z.eqb_spec (px_pos p) pos) as [He | He].
    + simpl. rewrite (rd_at _ pre (mkpxl pos c) suf) by done.
      simpl. by rewrite Z.eqb_refl.
    + destruct (Z.gtb_spec (px_pos p) pos) as [Hg | Hg].
      * simpl. rewrite (rd_at _ pre (mkpxl pos c) (p :: suf)) by done.
        simpl. by rewrite Z.eqb_refl.
      * simpl. rewrite (rd_at _ pre p (upsert pos c suf)) by done.
        destruct (Z.eqb_spec (px_pos p) pos); [done |].
        destruct (Z.gtb_spec (px_pos p) pos); [lia |].
        replace (Z.of_nat (length pre) + 1)
          with (Z.of_nat (length (pre ++ [p])))
          by (rewrite length_app; simpl; lia).
        replace (pre ++ p :: upsert pos c suf)
          with ((pre ++ [p]) ++ upsert pos c suf) by (by rewrite <- app_assoc).
        apply IH.
Qed.

Lemma pxbuf_remove_spec junk b index :
  pxbuf_rep b -> 0 < pb_size b -> 0 <= index ->
  pxbuf_remove junk b index =
  Some (mkpxbuf (pb_size b - 1) (remove_index (Z.to_nat index) (pb_buf b))).
Proof.
  intros [Hsize Hmax] Hpos Hidx. unfold pxbuf_remove, remove_index.
  rewrite (wrap16_small (_ - 1)) by lia.
  destruct (Z.eqb_spec (pb_size b - 1) 0) as [H1 | H1].
  - destruct (pb_buf b) as [| x [| y l]]; simpl in *; try lia.
    rewrite H1. replace (Z.to_nat index `min` 0)%nat with 0%nat by lia. done.
  - destruct (Z_lt_le_dec index (pb_size b - 1)) as [Hin | Hout].
    + assert (Hlk : is_Some (pb_buf b !! Z.to_nat index))
        by (apply lookup_lt_is_Some; lia).
      destruct Hlk as [x Hx].
      pose proof (take_drop_middle _ _ _ Hx) as Hsplit.
      set (pre := take (Z.to_nat index) (pb_buf b)) in *.
      set (mid := drop (S (Z.to_nat index)) (pb_buf b)) in *.
      assert (Hpre : length pre = Z.to_nat index)
        by (subst pre; rewrite length_take; lia).
      assert (Hlen : length (pb_buf b) = (length pre + S (length mid))%nat)
        by (rewrite <- Hsplit, length_app; done).
      replace (Z.to_nat (pb_size b - 1 - index)) with (length mid) by lia.
      replace index with (Z.of_nat (length pre)) at 1 by lia.
      rewrite <- Hsplit.
      destruct (shift_left_spec mid pre x) as [z ->].
      rewrite realloc_shrink by (rewrite !length_app; simpl; lia).
      replace (Z.to_nat index `min` (length (pre ++ x :: mid) - 1))%nat
        with (length pre) by (rewrite length_app; simpl; lia).
      rewrite delete_middle.
      replace (Z.to_nat (pb_size b - 1)) with (length (pre ++ mid))
        by (rewrite length_app; lia).
      rewrite app_assoc, take_app_length. done.
    + replace (Z.to_nat (pb_size b - 1 - index)) with 0%nat by lia.
      simpl. rewrite realloc_shrink by lia.
      replace (Z.to_nat index `min` (length (pb_buf b) - 1))%nat
        with (length (pb_buf b) - 1)%nat by lia.
      replace (Z.to_nat (pb_size b - 1)) with (length (pb_buf b) - 1)%nat by lia.
      rewrite delete_take_drop.
      rewrite (drop_ge _ (S _)) by lia. by rewrite app_nil_r.
Qed.

Lemma pxbuf_remove_rep junk b index :
  pxbuf_rep b -> 0 < pb_size b -> 0 <= index ->
  exists b',
    pxbuf_remove junk b index = Some b' /\
    pb_buf b' = remove_index (Z.to_nat index) (pb_buf b) /\
    pb_size b' = pb_size b - 1 /\
    pxbuf_rep b'.
Proof.
  intros Hrep Hpos Hidx. eexists.
  split; [by apply pxbuf_remove_spec |].
  split; [done |]. split; [done |].
  destruct Hrep as [Hsize Hmax]. split; simpl; [| lia].
  unfold remove_index. rewrite length_delete.
  - lia.
  - apply lookup_lt_is_Some. lia.
Qed.

Lemma pxbuf_init_rep : pxbuf_rep pxbuf_init.
Proof. split; simpl; lia. Qed.

Lemma pxbuf_init_sorted : pxbuf_sorted pxbuf_init.
Proof. constructor. Qed.

(** One admissible operation keeps the buffer well formed and sorted. *)
Lemma apply_op_sorted junk b o :
  pxbuf_rep b -> pxbuf_sorted b -> op_pre b o = true ->
  exists b', apply_op junk b o = Some b' /\ pxbuf_rep b' /\ pxbuf_sorted b'.
Proof.
  intros Hrep Hsorted Hpre. destruct o as [pos rgb | index]; simpl in *.
  - apply andb_true_iff in Hpre as [_ Hmax]. apply Z.ltb_lt in Hmax.
    destruct (pxbuf_insert_rep junk b pos rgb Hrep Hmax) as (b' & Hb' & Hbuf & Hrep').
    exists b'. split; [done |]. split; [done |].
    unfold pxbuf_sorted. rewrite Hbuf. by apply upsert_ascending.
  - apply andb_true_iff in Hpre as [Hidx Hne].
    apply andb_true_iff in Hidx as [Hidx _].
    apply Z.leb_le in Hidx. apply Z.ltb_lt in Hne.
    destruct (pxbuf_remove_rep junk b index Hrep Hne Hidx)
      as (b' & Hb' & Hbuf & _ & Hrep').
    exists b'. split; [done |]. split; [done |].
    unfold pxbuf_sorted. rewrite Hbuf. by apply remove_index_ascending.
Qed.

Lemma run_ops_sorted junk ops : forall b,
  pxbuf_rep b -> pxbuf_sorted b -> ops_pre junk b ops = true ->
  exists trace,
    run_ops junk b ops = Some trace /\
    length trace = length ops /\
    Forall (fun b' => pxbuf_rep b' /\ pxbuf_sorted b' /\
                      NoDup (px_pos <$> pb_buf b')) trace.
Proof.
  induction ops as [| o ops IH]; intros b Hrep Hsorted Hpre.
  - exists []. by repeat split.
  - simpl in Hpre. apply andb_true_iff in Hpre as [Hpre Hrest].
    destruct (apply_op_sorted junk b o Hrep Hsorted Hpre)
      as (b' & Hstep & Hrep' & Hsorted').
    rewrite Hstep in Hrest.
    destruct (IH b' Hrep' Hsorted' Hrest) as (trace & Hrun & Hlen & Hall).
    exists (b' :: trace). simpl. rewrite Hstep, Hrun.
    split; [done |]. split; [by rewrite Hlen |].
    constructor; [| done].
    split; [done |]. split; [done |]. by apply ascending_NoDup.
Qed.

(** C1, as the code has it.  Along every sequence of [pxbuf_insert] and
    [pxbuf_remove] calls on a buffer that starts empty, in which every
    [pxbuf_remove] is given a buffer that holds a pixel and every
    [pxbuf_insert] a buffer of fewer than 65535 pixels, every call returns and
    leaves the positions of the buffer strictly ascending, hence without
    duplicates. *)
Theorem pxbuf_ops_keep_sorted (junk : pxl) (ops : list pxop) :
  ops_pre junk pxbuf_init ops = true ->
  exists trace,
    run_ops junk pxbuf_init ops = Some trace /\
    length trace = length ops /\
    Forall (fun b => pxbuf_rep b /\ pxbuf_sorted b /\
                     NoDup (px_pos <$> pb_buf b)) trace.
Proof.
  apply run_ops_sorted; [apply pxbuf_init_rep | apply pxbuf_init_sorted].
Qed.

Lemma pxbuf_ops_keep_sorted_witness :
  exists trace,
    run_ops (mkpxl 0 off) pxbuf_init
      [Insert 7 red; Insert 3 off; Insert 7 off; Remove 0; Insert 5 red;
       Insert 9 red; Remove 40; Remove 1; Remove 0; Insert 2 red]
    = Some trace /\
    length trace = 10%nat /\
    Forall (fun b => pxbuf_rep b /\ pxbuf_sorted b /\
                     NoDup (px_pos <$> pb_buf b)) trace.
Proof.
  apply (pxbuf_ops_keep_sorted (mkpxl 0 off)
           [Insert 7 red; Insert 3 off; Insert 7 off; Remove 0; Insert 5 red;
            Insert 9 red; Remove 40; Remove 1; Remove 0; Insert 2 red]).
  vm_compute. reflexivity.
Defined.

(** C1, as the claim states it, fails: a [pxbuf_remove] on the buffer that the
    previous [pxbuf_remove] emptied decrements [size] from 0 to 65535 and then
    shifts cells of a block that is not there. *)
Lemma pxbuf_ops_remove_empty_counterexample :
  run_ops (mkpxl 0 off) pxbuf_init [Insert 3 red; Remove 0; Remove 0] = None.
Proof. vm_compute. reflexivity. Qed.

(** On the empty buffer [pxbuf_remove] reads outside the block for every
    index below 65535. *)
Lemma pxbuf_remove_empty_unsafe junk index :
  0 <= index < 65535 -> pxbuf_remove junk pxbuf_init index = None.
Proof.
  intros H. unfold pxbuf_remove. simpl pb_size.
  change (wrap16 (0 - 1)) with 65535. simpl Z.eqb. cbv iota.
  destruct (Z.to_nat (65535 - index)) as [| n] eqn:Hn; [lia |].
  simpl. rewrite rd_outside; [done | simpl; lia].
Qed.

(** C5, as the code has it.  On a buffer of size 0, [pxbuf_remove_at] returns
    false for every position and leaves the buffer as it is, and so does
    [pxbuf_exists]. *)
Theorem remove_at_empty_noop (junk : pxl) (b : pxbuf) (pos : Z) :
  pb_size b = 0 ->
  pxbuf_remove_at junk b pos = Some (b, false) /\
  pxbuf_exists b pos = Some false.
Proof.
  intros H0. unfold pxbuf_remove_at, pxbuf_exists. rewrite H0. done.
Qed.

Lemma remove_at_empty_noop_witness :
  pxbuf_remove_at (mkpxl 0 off) pxbuf_init 4 = Some (pxbuf_init, false) /\
  pxbuf_exists pxbuf_init 4 = Some false.
Proof. apply (remove_at_empty_noop (mkpxl 0 off) pxbuf_init 4). reflexivity. Defined.

(** C5, as the claim states it, fails for [pxbuf_remove]: on the empty buffer
    index 0 makes it shift cells of a block that is not there, and index 65535
    leaves a buffer whose size is 65535. *)
Lemma pxbuf_remove_empty_counterexample :
  pxbuf_remove (mkpxl 0 off) pxbuf_init 0 = None /\
  pb_size <$> pxbuf_remove (mkpxl 0 off) pxbuf_init 65535 = Some 65535.
Proof. split; vm_compute; reflexivity. Qed.

(** C7.  On a well-formed buffer whose size can still be incremented,
    [pxbuf_insert(pos, c)] returns and [pxbuf_exists(pos)] is then true; a
    second [pxbuf_insert(pos, c2)] returns as well, the colour then stored for
    [pos] is [c2], and [size] is what it was after the first insertion. *)
Theorem insert_exists_upsert (junk : pxl) (b : pxbuf) (pos : Z) (c c2 : RGB_t) :
  pxbuf_rep b -> pb_size b < 65535 ->
  exists b1 b2,
    pxbuf_insert junk b pos c = Some b1 /\
    pxbuf_exists b1 pos = Some true /\
    pxbuf_lookup (pb_buf b1) pos = Some c /\
    pxbuf_insert junk b1 pos c2 = Some b2 /\
    pxbuf_lookup (pb_buf b2) pos = Some c2 /\
    pb_size b2 = pb_size b1 /\
    length (pb_buf b2) = length (pb_buf b1).
Proof.
  intros Hrep Hmax.
  destruct (pxbuf_insert_rep junk b pos c Hrep Hmax) as (b1 & Hb1 & Hbuf1 & Hrep1).
  assert (Hfit : Z.of_nat (length (upsert pos c2 (pb_buf b1))) < 65536).
  { rewrite Hbuf1, upsert_upsert, (upsert_length_color pos c2 c), <- Hbuf1.
    destruct Hrep1 as [<- ?]. done. }
  pose proof (pxbuf_insert_spec junk b1 pos c2 Hrep1 Hfit) as Hb2.
  eexists b1, _. split; [done |].
  split.
  { unfold pxbuf_exists. destruct Hrep1 as [-> _]. rewrite Nat2Z.id, Hbuf1.
    apply (exists_scan_upsert pos c (pb_buf b) []). }
  split; [rewrite Hbuf1; apply upsert_lookup_eq |].
  split; [exact Hb2 |]. simpl.
  split; [apply upsert_lookup_eq |].
  assert (Hlen : length (upsert pos c2 (pb_buf b1)) = length (pb_buf b1)).
  { rewrite Hbuf1 at 1.
    by rewrite upsert_upsert, (upsert_length_color pos c2 c), <- Hbuf1. }
  split; [| done]. destruct Hrep1 as [-> _]. by rewrite Hlen.
Qed.

Lemma insert_exists_upsert_witness :
  exists b1 b2,
    pxbuf_insert (mkpxl 0 off) (mkpxbuf 2 [mkpxl 2 red; mkpxl 8 red]) 5 off = Some b1 /\
    pxbuf_exists b1 5 = Some true /\
    pxbuf_lookup (pb_buf b1) 5 = Some off /\
    pxbuf_insert (mkpxl 0 off) b1 5 red = Some b2 /\
    pxbuf_lookup (pb_buf b2) 5 = Some red /\
    pb_size b2 = pb_size b1 /\
    length (pb_buf b2) = length (pb_buf b1).
Proof.
  apply (insert_exists_upsert (mkpxl 0 off)
           (mkpxbuf 2 [mkpxl 2 red; mkpxl 8 red]) 5 off red).
  - split; simpl; lia.
  - simpl. lia.
Defined.

(** ** Distribution of colours over the strip *)

Lemma distribute_loop_spec L size (cs : list RGB_t) : forall pre_cs filled rest,
  length filled = length pre_cs -> length rest = length cs ->
  distribute_loop L (length cs) (Z.of_nat (length filled)) (pre_cs ++ cs) size
                  (filled ++ rest)
  = Some (filled ++
          imap (fun i c =>
                  mksubstrp
                    (if Z.of_nat (length filled + i) =? wrap16 (size - 1)
                     then wrap16 (L / size + L mod size) else L / size) c) cs).
Proof.
  induction cs as [| c cs IH]; intros pre_cs filled rest Hfilled Hrest.
  - destruct rest; [| done]. done.
  - destruct rest as [| r rest]; [done |].
    simpl distribute_loop.
    rewrite (rd_at _ pre_cs c cs) by (done || lia).
    rewrite (wr_at _ filled r rest) by done.
    set (x := mksubstrp _ c).
    replace (Z.of_nat (length filled) + 1)
      with (Z.of_nat (length (filled ++ [x])))
      by (rewrite length_app; simpl; lia).
    replace (pre_cs ++ c :: cs) with ((pre_cs ++ [c]) ++ cs)
      by (by rewrite <- app_assoc).
    replace (filled ++ x :: rest) with ((filled ++ [x]) ++ rest)
      by (by rewrite <- app_assoc).
    rewrite IH by (rewrite ?length_app; simpl in *; lia).
    rewrite <- app_assoc. simpl. do 3 f_equal.
    + subst x. by rewrite Nat.add_0_r.
    + apply imap_ext. intros i c' _. simpl.
      rewrite length_app. simpl.
      by replace (length filled + 1 + i)%nat with (length filled + S i)%nat by lia.
Qed.

Lemma distribute_build_segments L junk (rgb : list RGB_t) :
  rgb <> [] -> Z.of_nat (length rgb) < 65536 -> 0 <= L < 65536 ->
  distribute_build L junk rgb (Z.of_nat (length rgb)) = Some (segments L rgb).
Proof.
  intros Hne HN HL. unfold distribute_build, segments.
  assert (Hpos : 1 <= Z.of_nat (length rgb)) by (destruct rgb; [done | simpl; lia]).
  rewrite Nat2Z.id.
  pose proof (distribute_loop_spec L (Z.of_nat (length rgb)) rgb [] []
                (realloc junk [] (Z.of_nat (length rgb)))) as H.
  simpl in H. change (Z.of_nat 0) with 0 in H. rewrite H.
  - f_equal. apply imap_ext. intros i c _. simpl. f_equal.
    unfold segment_length. rewrite (wrap16_small (_ - 1)) by lia.
    destruct (_ =? _); [| done].
    apply wrap16_small.
    pose proof (Z.div_pos L (Z.of_nat (length rgb))).
    pose proof (Z.mod_pos_bound L (Z.of_nat (length rgb))).
    pose proof (Z.div_mod L (Z.of_nat (length rgb))).
    nia.
  - done.
  - unfold realloc. rewrite length_app, length_take, length_replicate. simpl. lia.
Qed.

Lemma segment_length_nonneg L N i : 0 <= L -> 1 <= N -> 0 <= segment_length L N i.
Proof.
  intros HL HN. unfold segment_length.
  pose proof (Z.div_pos L N). pose proof (Z.mod_pos_bound L N).
  destruct (_ =? _); lia.
Qed.

Lemma painted_app l k : painted (l ++ k) = painted l + painted k.
Proof. induction l as [| s l IH]; simpl; [done |]. rewrite IH. lia. Qed.

Lemma painted_uniform (f : nat -> RGB_t -> substrp) q (l : list RGB_t) :
  (forall i c, (i < length l)%nat -> ss_length (f i c) = q) ->
  painted (imap f l) = Z.of_nat (length l) * q.
Proof.
  revert f. induction l as [| c l IH]; intros f Hf; [done |].
  change (painted (imap f (c :: l)))
    with (ss_length (f 0%nat c) + painted (imap (f ∘ S) l)).
  rewrite Hf by (simpl; lia).
  rewrite IH by (intros i c' Hi; apply Hf; simpl; lia).
  simpl length. lia.
Qed.

Lemma painted_segments L (rgb : list RGB_t) :
  rgb <> [] -> painted (segments L rgb) = L.
Proof.
  intros Hne. unfold segments.
  destruct rgb as [| c0 rgb0] using rev_ind; [done |]. clear IHrgb0 Hne.
  rename rgb0 into front, c0 into c.
  rewrite imap_app, painted_app.
  rewrite (painted_uniform _ (L / Z.of_nat (length (front ++ [c])))).
  - simpl. unfold segment_length.
    rewrite length_app. simpl length.
    destruct (Z.eqb_spec (Z.of_nat (length front + 0))
                (Z.of_nat (length front + 1) - 1)); [| lia].
    pose proof (Z.div_mod L (Z.of_nat (length front + 1))). lia.
  - intros i c' Hi. simpl. unfold segment_length.
    rewrite length_app. simpl length.
    destruct (Z.eqb_spec (Z.of_nat i) (Z.of_nat (length front + 1) - 1)); [lia | done].
Qed.

Lemma tx_repeat_length order n c : length (tx_repeat order n c) = (3 * n)%nat.
Proof. induction n as [| n IH]; simpl; lia. Qed.

Lemma segment_bytes_length order segs :
  Forall (fun s => 0 <= ss_length s) segs ->
  Z.of_nat (length (segment_bytes order segs)) = 3 * painted segs.
Proof.
  unfold segment_bytes.
  induction 1 as [| s segs Hs _ IH]; [done |].
  rewrite fmap_cons. simpl concat. simpl painted.
  rewrite length_app, tx_repeat_length, Nat2Z.inj_add, IH. lia.
Qed.

Lemma substrp_loop_spec order (suf : list substrp) : forall pre,
  substrp_loop order (length suf) (Z.of_nat (length pre)) (pre ++ suf)
  = Some (segment_bytes order suf).
Proof.
  induction suf as [| s suf IH]; intros pre; [done |].
  simpl substrp_loop. rewrite (rd_at _ pre s suf) by done.
  replace (Z.of_nat (length pre) + 1) with (Z.of_nat (length (pre ++ [s])))
    by (rewrite length_app; simpl; lia).
  replace (pre ++ s :: suf) with ((pre ++ [s]) ++ suf) by (by rewrite <- app_assoc).
  by rewrite IH.
Qed.

Lemma segments_nonneg L (rgb : list RGB_t) :
  0 <= L -> rgb <> [] -> Forall (fun s => 0 <= ss_length s) (segments L rgb).
Proof.
  intros HL Hne. apply Forall_forall. intros s Hs.
  apply list_elem_of_lookup in Hs as [i Hi].
  unfold segments in Hi. rewrite list_lookup_imap in Hi.
  destruct (rgb !! i); [| done]. simpl in Hi. injection Hi as <-. simpl.
  apply segment_length_nonneg; [done |]. destruct rgb; [done | simpl; lia].
Qed.

(** C3.  For [N >= 1] colours and a strip of [L] pixels,
    [strip_distribute_rgb] builds one segment per colour, in the order of the
    colours; each of the first [N - 1] segments has length [L / N], the last
    one [L / N + L mod N]; the lengths add up to [L], and exactly [L] pixels
    are sent between one [ws2812_prep_tx] and one [ws2812_end_tx]. *)
Theorem distribute_rgb_segments (order : color_order) (L : Z) (junk : substrp)
  (rgb : list RGB_t) :
  rgb <> [] -> Z.of_nat (length rgb) < 65536 -> 0 <= L < 65536 ->
  strip_distribute_rgb order L junk rgb (Z.of_nat (length rgb)) =
    Some (segments L rgb, PrepTx :: segment_bytes order (segments L rgb) ++ [EndTx]) /\
  length (segments L rgb) = length rgb /\
  (forall (i : nat) (c : RGB_t), rgb !! i = Some c ->
     segments L rgb !! i =
     Some (mksubstrp (if bool_decide (S i = length rgb)
                      then L / Z.of_nat (length rgb) + L mod Z.of_nat (length rgb)
                      else L / Z.of_nat (length rgb)) c)) /\
  painted (segments L rgb) = L /\
  Z.of_nat (length (segment_bytes order (segments L rgb))) = 3 * L.
Proof.
  intros Hne HN HL. split; [| split; [| split; [| split]]].
  - unfold strip_distribute_rgb.
    rewrite distribute_build_segments by done.
    unfold strip_apply_substrpbuf. rewrite Nat2Z.id.
    replace (length rgb) with (length (segments L rgb))
      by (unfold segments; apply length_imap).
    pose proof (substrp_loop_spec order (segments L rgb) []) as H.
    simpl in H. change (Z.of_nat 0) with 0 in H. by rewrite H.
  - unfold segments. apply length_imap.
  - intros i c Hi. unfold segments. rewrite list_lookup_imap, Hi. simpl.
    do 2 f_equal. unfold segment_length.
    apply lookup_lt_Some in Hi.
    destruct (Z.eqb_spec (Z.of_nat i) (Z.of_nat (length rgb) - 1));
      case_bool_decide; (done || lia).
  - by apply painted_segments.
  - rewrite segment_bytes_length by (apply segments_nonneg; [lia | done]).
    by rewrite painted_segments.
Qed.

(** The scenario of the specification: ten pixels, three colours. *)
Lemma distribute_rgb_segments_witness :
  strip_distribute_rgb RGB 10 (mksubstrp 0 off)
    [mkRGB 255 0 0; mkRGB 0 255 0; mkRGB 0 0 255] 3 =
    Some ([mksubstrp 3 (mkRGB 255 0 0); mksubstrp 3 (mkRGB 0 255 0);
           mksubstrp 4 (mkRGB 0 0 255)],
          PrepTx ::
          segment_bytes RGB
            [mksubstrp 3 (mkRGB 255 0 0); mksubstrp 3 (mkRGB 0 255 0);
             mksubstrp 4 (mkRGB 0 0 255)] ++ [EndTx]) /\
  painted [mksubstrp 3 (mkRGB 255 0 0); mksubstrp 3 (mkRGB 0 255 0);
           mksubstrp 4 (mkRGB 0 0 255)] = 10 /\
  Z.of_nat (length (segment_bytes RGB
            [mksubstrp 3 (mkRGB 255 0 0); mksubstrp 3 (mkRGB 0 255 0);
             mksubstrp 4 (mkRGB 0 0 255)])) = 30.
Proof.
  assert (Hne : [mkRGB 255 0 0; mkRGB 0 255 0; mkRGB 0 0 255] <> []) by done.
  assert (HN : Z.of_nat (length [mkRGB 255 0 0; mkRGB 0 255 0; mkRGB 0 0 255]) < 65536)
    by (simpl; lia).
  assert (HL : 0 <= 10 < 65536) by lia.
  destruct (distribute_rgb_segments RGB 10 (mksubstrp 0 off)
              [mkRGB 255 0 0; mkRGB 0 255 0; mkRGB 0 0 255] Hne HN HL)
    as (Hrun & _ & _ & Hsum & Hbytes).
  split; [exact Hrun |]. split; [exact Hsum | exact Hbytes].
Defined.

(** ** Projection of a dense array *)

(** With a strip of 256 pixels or more the [uint8_t] counter of
    [strip_apply_RGBbuf] never reaches [strip_size]: every unfolding of the
    loop is still running, three more bytes sent each time round. *)
Lemma RGBbuf_loop_running order L (RGBbuf : list RGB_t) :
  256 <= L -> (256 <= length RGBbuf)%nat ->
  forall fuel i out, 0 <= i < 256 -> EndTx ∉ out ->
  exists out',
    RGBbuf_loop order L fuel i RGBbuf out = (Running, out') /\
    length out' = (length out + 3 * fuel)%nat /\
    EndTx ∉ out'.
Proof.
  intros HL Hlen. induction fuel as [| fuel IH]; intros i out Hi Hout.
  - exists out. split; [done |]. split; [lia | done].
  - simpl. destruct (Z.ltb_spec i L); [| lia].
    assert (Hrd : is_Some (rd RGBbuf i)).
    { unfold rd. destruct (Z.ltb_spec i 0); [lia |].
      apply lookup_lt_is_Some. lia. }
    destruct Hrd as [c ->].
    assert (Hw : 0 <= wrap8 (i + 1) < 256)
      by (unfold wrap8; apply Z.mod_pos_bound; lia).
    destruct (IH (wrap8 (i + 1)) (out ++ tx_rgb order c) Hw)
      as (out' & -> & Hout' & Hend).
    { rewrite elem_of_app. intros [H' | H']; [done |].
      unfold tx_rgb in H'.
      repeat (apply elem_of_cons in H' as [H' | H']; [done |]).
      by apply elem_of_nil in H'. }
    exists out'. split; [done |]. split; [| done].
    rewrite Hout', length_app. simpl. lia.
Qed.

(** With at most 255 pixels the loop visits every cell once and returns. *)
Lemma RGBbuf_loop_returns order L (suf : list RGB_t) : forall pre out,
  Z.of_nat (length (pre ++ suf)) = L -> L <= 255 ->
  RGBbuf_loop order L (S (length suf)) (Z.of_nat (length pre)) (pre ++ suf) out
  = (Returned, out ++ concat (tx_rgb order <$> suf)).
Proof.
  induction suf as [| c suf IH]; intros pre out Hlen HL.
  - simpl. rewrite app_nil_r in *.
    destruct (Z.ltb_spec (Z.of_nat (length pre)) L); [lia |].
    by rewrite app_nil_r.
  - rewrite length_app in Hlen. simpl length in Hlen.
    change (RGBbuf_loop order L (S (length (c :: suf))) (Z.of_nat (length pre))
              (pre ++ c :: suf) out)
      with (if Z.of_nat (length pre) <? L then
              match rd (pre ++ c :: suf) (Z.of_nat (length pre)) with
              | None => (Faulted, out)
              | Some c' =>
                  RGBbuf_loop order L (S (length suf))
                    (wrap8 (Z.of_nat (length pre) + 1)) (pre ++ c :: suf)
                    (out ++ tx_rgb order c')
              end
            else (Returned, out)).
    destruct (Z.ltb_spec (Z.of_nat (length pre)) L); [| lia].
    rewrite (rd_at _ pre c suf) by done.
    rewrite wrap8_small by lia.
    replace (Z.of_nat (length pre) + 1) with (Z.of_nat (length (pre ++ [c])))
      by (rewrite length_app; simpl; lia).
    replace (pre ++ c :: suf) with ((pre ++ [c]) ++ suf) by (by rewrite <- app_assoc).
    rewrite IH by (rewrite ?length_app; simpl; lia).
    rewrite fmap_cons. simpl concat. by rewrite <- !app_assoc.
Qed.

Lemma strip_apply_RGBbuf_small order (RGBbuf : list RGB_t) :
  (length RGBbuf <= 255)%nat ->
  strip_apply_RGBbuf order (Z.of_nat (length RGBbuf)) (S (length RGBbuf)) RGBbuf =
  (Returned, PrepTx :: concat (tx_rgb order <$> RGBbuf) ++ [EndTx]).
Proof.
  intros Hlen. unfold strip_apply_RGBbuf.
  pose proof (RGBbuf_loop_returns order (Z.of_nat (length RGBbuf)) RGBbuf []
                [PrepTx] eq_refl ltac:(lia)) as H.
  change (RGBbuf_loop order (Z.of_nat (length RGBbuf)) (S (length RGBbuf)) 0
            RGBbuf [PrepTx]
          = (Returned, [PrepTx] ++ concat (tx_rgb order <$> RGBbuf))) in H.
  rewrite H. done.
Qed.

(** C4 fails on the code.  For [strip_size = 256] and an array of 256
    colours, [strip_apply_RGBbuf] has not returned after any number of
    iterations: its counter is a [uint8_t], which goes from 255 back to 0, and
    [ws2812_end_tx] is never reached. *)
Theorem strip_apply_RGBbuf_256_diverges (order : color_order) (fuel : nat) :
  exists out,
    strip_apply_RGBbuf order 256 fuel (replicate 256 red) = (Running, out) /\
    length out = S (3 * fuel) /\
    EndTx ∉ out.
Proof.
  unfold strip_apply_RGBbuf.
  destruct (RGBbuf_loop_running order 256 (replicate 256 red) ltac:(lia)
              ltac:(rewrite length_replicate; lia) fuel 0 [PrepTx])
    as (out & -> & Hlen & Hend).
  { lia. }
  { intros H'. apply list_elem_of_singleton in H'. done. }
  exists out. split; [done |]. split; [| done]. rewrite Hlen. simpl. lia.
Qed.

(** ** Projection of the sparse pixel buffer *)

Lemma tx_rgb_off order : tx_rgb order off = [TxByte 0; TxByte 0; TxByte 0].
Proof. by destruct order. Qed.

Lemma sparse_walk_nil order n : forall i,
  sparse_walk order n i [] = tx_repeat order n off.
Proof. induction n as [| n IH]; intros i; simpl; [done |]. by rewrite IH. Qed.

Lemma pxbuf_loop_spec order b :
  pxbuf_rep b ->
  forall n i pre pending,
    pb_buf b = pre ++ pending ->
    pxbuf_loop order n i (Z.of_nat (length pre)) b
    = Some (sparse_walk order n i pending).
Proof.
  intros [Hsize Hmax]. induction n as [| n IH]; intros i pre pending Hbuf; [done |].
  simpl pxbuf_loop. rewrite Hsize, Hbuf, length_app.
  destruct pending as [| p rest].
  - simpl length.
    destruct (Z.ltb_spec (Z.of_nat (length pre)) (Z.of_nat (length pre + 0))); [lia |].
    rewrite (IH (i + 1) pre []) by done.
    simpl sparse_walk. by destruct order.
  - simpl length.
    destruct (Z.ltb_spec (Z.of_nat (length pre))
                (Z.of_nat (length pre + S (length rest)))); [| lia].
    rewrite rd_middle. simpl sparse_walk.
    destruct (i =? px_pos p).
    + rewrite wrap16_small
        by (rewrite Hbuf, length_app in Hsize; simpl in Hsize; lia).
      replace (Z.of_nat (length pre) + 1) with (Z.of_nat (length (pre ++ [p])))
        by (rewrite length_app; simpl; lia).
      rewrite (IH (i + 1) (pre ++ [p]) rest) by (by rewrite <- app_assoc).
      done.
    + rewrite (IH (i + 1) pre (p :: rest)) by done.
      by destruct order.
Qed.

(** C8.  [strip_apply_pxbuf] walks the physical positions 0, 1, ...,
    [strip_size - 1]: where the position is the one of the next pending
    pixel it sends that pixel's colour and moves on to the pixel after it,
    elsewhere it sends three zero bytes; on an empty buffer it makes the calls
    of [strip_apply_all] with black, three zero bytes per position. *)
Theorem apply_pxbuf_sparse_walk (order : color_order) (L : Z) (b : pxbuf) :
  pxbuf_rep b ->
  strip_apply_pxbuf order L b =
    Some (PrepTx :: sparse_walk order (Z.to_nat L) 0 (pb_buf b) ++ [EndTx]) /\
  (pb_size b = 0 ->
   strip_apply_pxbuf order L b = Some (strip_apply_all order L off) /\
   strip_apply_all order L off =
     PrepTx :: concat (replicate (Z.to_nat L) [TxByte 0; TxByte 0; TxByte 0])
            ++ [EndTx]).
Proof.
  intros Hrep.
  assert (Hblack : forall n, tx_repeat order n off =
                    concat (replicate n [TxByte 0; TxByte 0; TxByte 0])).
  { induction n as [| n IH]; [done |].
    change (tx_repeat order (S n) off)
      with (tx_rgb order off ++ tx_repeat order n off).
    by rewrite IH, tx_rgb_off. }
  split.
  - unfold strip_apply_pxbuf.
    destruct (Z.eqb_spec (pb_size b) 0) as [H0 | H0].
    + destruct Hrep as [Hsize _].
      assert (Hnil : pb_buf b = [])
        by (destruct (pb_buf b); [done | simpl in Hsize; lia]).
      rewrite Hnil, sparse_walk_nil. done.
    + pose proof (pxbuf_loop_spec order b Hrep (Z.to_nat L) 0 [] (pb_buf b)) as H.
      simpl in H. change (Z.of_nat 0) with 0 in H. by rewrite H.
  - intros H0. unfold strip_apply_pxbuf. rewrite H0. simpl.
    split; [done |]. unfold strip_apply_all. by rewrite Hblack.
Qed.

Lemma apply_pxbuf_sparse_walk_witness :
  strip_apply_pxbuf GRB 4 (mkpxbuf 2 [mkpxl 1 (mkRGB 10 20 30); mkpxl 3 (mkRGB 7 8 9)]) =
    Some (PrepTx ::
          sparse_walk GRB (Z.to_nat 4) 0
            [mkpxl 1 (mkRGB 10 20 30); mkpxl 3 (mkRGB 7 8 9)] ++ [EndTx]) /\
  sparse_walk GRB (Z.to_nat 4) 0 [mkpxl 1 (mkRGB 10 20 30); mkpxl 3 (mkRGB 7 8 9)] =
    [TxByte 0; TxByte 0; TxByte 0; TxByte 20; TxByte 10; TxByte 30;
     TxByte 0; TxByte 0; TxByte 0; TxByte 8; TxByte 7; TxByte 9].
Proof.
  split; [| reflexivity].
  apply (apply_pxbuf_sparse_walk GRB 4
           (mkpxbuf 2 [mkpxl 1 (mkRGB 10 20 30); mkpxl 3 (mkRGB 7 8 9)])).
  split; simpl; lia.
Defined.

(** ** The wipe of [strip_override] *)










(** ** Brightness fade *)

Lemma to_int_id x : -32768 <= x < 32768 -> to_int x = x.
Proof.
  intros H. unfold to_int, wrap16.
  destruct (Z_lt_le_dec x 0) as [Hneg | Hpos].
  - replace (x mod 65536) with (x + 65536)
      by (apply (Z.mod_unique x 65536 (-1) (x + 65536)); lia).
    destruct (Z.ltb_spec (x + 65536) 32768); lia.
  - rewrite Z.mod_small by lia.
    destruct (Z.ltb_spec x 32768); lia.
Qed.

Lemma ramp_calls_spec s :
  1 <= s ->
  1 <= ramp_calls s /\ (ramp_calls s - 1) * s <= 254 /\ 255 <= ramp_calls s * s.
Proof.
  intros Hs. unfold ramp_calls.
  pose proof (Z.div_mod (254 + s) s ltac:(lia)) as Hdm.
  pose proof (Z.mod_pos_bound (254 + s) s ltac:(lia)) as Hm.
  nia.
Qed.

Lemma wave_state_0 s : 1 <= s -> wave_state s 0 = mkfade true 0.
Proof.
  intros Hs. unfold wave_state. destruct (ramp_calls_spec s Hs) as (Hm & _).
  by destruct (Z.ltb_spec 0 (ramp_calls s)); [| lia].
Qed.

(** One call moves the statics from point [j] of the period to point
    [j + 1], and returns true exactly when that closes the period. *)
Lemma fade_step_wave rgb s j :
  1 <= s <= 32767 -> 0 <= j < 2 * ramp_calls s ->
  fst (fst (rgb_apply_brightness_fade (wave_state s j) rgb s false))
    = wave_state s ((j + 1) mod (2 * ramp_calls s)) /\
  snd (rgb_apply_brightness_fade (wave_state s j) rgb s false)
    = ((j + 1) mod (2 * ramp_calls s) =? 0).
Proof.
  intros Hs Hj. destruct (ramp_calls_spec s ltac:(lia)) as (Hm1 & Hlow & Hhigh).
  set (m := ramp_calls s) in *.
  unfold rgb_apply_brightness_fade. cbn [fst snd].
  destruct (Z_lt_le_dec (j + 1) (2 * m)) as [Hin | Hend].
  - rewrite (Z.mod_small (j + 1)) by lia.
    destruct (Z.eqb_spec (j + 1) 0); [lia |].
    unfold wave_state. fold m.
    destruct (Z.ltb_spec j m) as [Hup | Hdown]; cbn [inc brightness].
    + assert (Hjs : j * s <= 254) by nia.
      assert (Hsum : j * s + s < 32768) by (destruct (Z.eq_dec j 0); nia).
      rewrite to_int_id by nia.
      destruct (Z.ltb_spec (j + 1) m) as [Hup' | Htop].
      * assert ((j + 1) * s <= 254) by nia.
        destruct (Z.geb_spec (j * s + s) 255); [lia |].
        destruct (Z.ltb_spec (j * s + s) 255); [| lia].
        destruct (Z.eqb_spec (j * s + s) 0); [nia |].
        split; [f_equal; lia | done].
      * assert (j + 1 = m) by lia.
        destruct (Z.geb_spec (j * s + s) 255); [| nia].
        simpl. split; [f_equal; nia | done].
    + assert (Hv : (j + 1 - m) * s <= 254) by nia.
      assert (Hv0 : 0 <= (j - m) * s) by nia.
      rewrite to_int_id by nia.
      destruct (Z.ltb_spec (j + 1) m); [lia |].
      destruct (Z.ltb_spec (255 - (j - m) * s - s) 0); [nia |].
      destruct (Z.eqb_spec (255 - (j - m) * s - s) 0); [nia |].
      split; [f_equal; lia | done].
  - assert (Hj1 : j + 1 = 2 * m) by lia.
    rewrite Hj1, Z_mod_same_full. rewrite wave_state_0 by lia.
    unfold wave_state. fold m.
    destruct (Z.ltb_spec j m); [lia |]. cbn [inc brightness].
    assert (Hv0 : 0 <= (j - m) * s) by nia.
    assert (Hv : (j - m) * s <= 254) by nia.
    rewrite to_int_id by nia.
    assert (Hle : 255 - (j - m) * s - s <= 0) by nia.
    destruct (Z.ltb_spec (255 - (j - m) * s - s) 0); [done |].
    by replace (255 - (j - m) * s - s) with 0 by lia.
Qed.

Lemma wave_state_triangle s k :
  1 <= s ->
  wave_state s (k mod (2 * ramp_calls s)) =
  mkfade (k mod (2 * ramp_calls s) <? ramp_calls s) (triangle s k).
Proof.
  intros Hs. destruct (ramp_calls_spec s Hs) as (Hm1 & Hlow & Hhigh).
  unfold wave_state, triangle. cbv zeta.
  pose proof (Z.mod_pos_bound k (2 * ramp_calls s) ltac:(lia)) as Hj.
  set (j := k mod (2 * ramp_calls s)) in *. set (m := ramp_calls s) in *.
  destruct (Z.ltb_spec j m) as [Hup | Hdown].
  - destruct (Z.leb_spec j m); [| lia]. f_equal. nia.
  - destruct (Z.leb_spec j m) as [Hle | Hgt]; [| done].
    assert (j = m) by lia. subst j. f_equal. nia.
Qed.

Lemma triangle_zero_iff s k :
  1 <= s -> (triangle s k = 0 <-> k mod (2 * ramp_calls s) = 0).
Proof.
  intros Hs. destruct (ramp_calls_spec s Hs) as (Hm1 & Hlow & Hhigh).
  unfold triangle. cbv zeta.
  pose proof (Z.mod_pos_bound k (2 * ramp_calls s) ltac:(lia)) as Hj.
  set (j := k mod (2 * ramp_calls s)) in *. set (m := ramp_calls s) in *.
  destruct (Z.leb_spec j m); split; intros H'; nia.
Qed.

Lemma triangle_range s k : 1 <= s -> 0 <= triangle s k <= 255.
Proof.
  intros Hs. destruct (ramp_calls_spec s Hs) as (Hm1 & Hlow & Hhigh).
  unfold triangle. cbv zeta.
  pose proof (Z.mod_pos_bound k (2 * ramp_calls s) ltac:(lia)) as Hj.
  set (j := k mod (2 * ramp_calls s)) in *. set (m := ramp_calls s) in *.
  destruct (Z.leb_spec j m); nia.
Qed.

Lemma fade_calls_S n st rgb s :
  fade_calls (S n) st rgb s =
  (fst (fst (rgb_apply_brightness_fade st rgb s false)),
   snd (rgb_apply_brightness_fade st rgb s false))
  :: fade_calls n (fst (fst (rgb_apply_brightness_fade st rgb s false))) rgb s.
Proof.
  change (fade_calls (S n) st rgb s)
    with (let '(st', _, r) := rgb_apply_brightness_fade st rgb s false in
          (st', r) :: fade_calls n st' rgb s).
  by destruct (rgb_apply_brightness_fade st rgb s false) as [[st' out] r].
Qed.

Lemma fade_calls_wave rgb s :
  1 <= s <= 32767 ->
  forall n k,
    fade_calls n (wave_state s (Z.of_nat k mod (2 * ramp_calls s))) rgb s =
    (fun k' => (mkfade (Z.of_nat k' mod (2 * ramp_calls s) <? ramp_calls s)
                       (triangle s (Z.of_nat k')),
                Z.of_nat k' mod (2 * ramp_calls s) =? 0)) <$> seq (S k) n.
Proof.
  intros Hs. destruct (ramp_calls_spec s ltac:(lia)) as (Hm1 & _).
  induction n as [| n IH]; intros k; [done |].
  pose proof (Z.mod_pos_bound (Z.of_nat k) (2 * ramp_calls s) ltac:(lia)) as Hj.
  destruct (fade_step_wave rgb s _ Hs Hj) as [Hst Hr].
  rewrite Zplus_mod_idemp_l in Hst, Hr.
  replace (Z.of_nat k + 1) with (Z.of_nat (S k)) in Hst, Hr by lia.
  rewrite fade_calls_S, Hst, Hr, IH.
  cbn [seq fmap list_fmap]. f_equal. f_equal.
  apply wave_state_triangle. lia.
Qed.

(** C9, as the code has it.  For a step size from 1 to 32767 and any number of
    calls, the first with [start = true]: after call number [k] the
    brightness is the triangle wave at [k], which rises in steps of
    [step_size] to 255, where the direction turns to down, and falls in steps
    of [step_size] to 0, where the direction turns to up; the call returns
    true exactly when [k] is a multiple of the period, which is exactly when
    the brightness is back at 0. *)
Theorem brightness_fade_triangle (st : fade_state) (rgb : RGB_t) (s : Z) (n : nat) :
  1 <= s <= 32767 ->
  fade_sequence n st rgb s =
    (fun k => (mkfade (Z.of_nat k mod (2 * ramp_calls s) <? ramp_calls s)
                      (triangle s (Z.of_nat k)),
               Z.of_nat k mod (2 * ramp_calls s) =? 0)) <$> seq 1 n /\
  (forall k, 0 <= triangle s k <= 255) /\
  (forall k, triangle s k = 0 <-> k mod (2 * ramp_calls s) = 0) /\
  triangle s (ramp_calls s) = 255.
Proof.
  intros Hs. destruct (ramp_calls_spec s ltac:(lia)) as (Hm1 & Hlow & Hhigh).
  split; [| split; [| split]].
  - destruct n as [| n]; [done |].
    change (fade_sequence (S n) st rgb s)
      with (fade_calls (S n) (mkfade true 0) rgb s).
    rewrite <- (wave_state_0 s) by lia.
    change 0 with (Z.of_nat 0) at 1.
    rewrite <- (Z.mod_small (Z.of_nat 0) (2 * ramp_calls s)) by lia.
    by rewrite fade_calls_wave.
  - intros k. apply triangle_range. lia.
  - intros k. apply triangle_zero_iff. lia.
  - unfold triangle. cbv zeta.
    rewrite Z.mod_small by lia.
    destruct (Z.leb_spec (ramp_calls s) (ramp_calls s)); lia.
Qed.

Lemma brightness_fade_triangle_witness :
  fade_sequence 8 (mkfade false 77) (mkRGB 10 20 30) 100 =
    [(mkfade true 100, false); (mkfade true 200, false);
     (mkfade false 255, false); (mkfade false 155, false);
     (mkfade false 55, false); (mkfade true 0, true);
     (mkfade true 100, false); (mkfade true 200, false)].
Proof.
  destruct (brightness_fade_triangle (mkfade false 77) (mkRGB 10 20 30) 100 8
              ltac:(lia)) as [Hrun _].
  rewrite Hrun. reflexivity.
Defined.

(** C9, as the claim states it, fails for step size 0: the brightness never
    leaves 0 and the direction never turns, yet every call returns true. *)
Lemma brightness_fade_step_0_counterexample :
  fade_sequence 4 fade_init (mkRGB 10 20 30) 0 =
    [(mkfade true 0, true); (mkfade true 0, true);
     (mkfade true 0, true); (mkfade true 0, true)].
Proof. vm_compute. reflexivity. Qed.

(** With a step size of 32768 or more the sum leaves the range of [int]: for
    65535 the brightness goes down, below 0, while the direction is up. *)
Lemma brightness_fade_step_65535 :
  fade_sequence 3 fade_init (mkRGB 10 20 30) 65535 =
    [(mkfade true (-1), false); (mkfade true (-2), false);
     (mkfade true (-3), false)].
Proof. vm_compute. reflexivity. Qed.

(* ================================================================== *)
(** * Further properties of the code *)
(* ================================================================== *)

(** ** Lookup, membership test and removal by position *)

Lemma pxbuf_lookup_below pos l :
  Forall (fun p => px_pos p < pos) l -> pxbuf_lookup l pos = None.
Proof.
  induction 1 as [| p l Hp _ IH]; simpl; [done |].
  by destruct (Z.eqb_spec (px_pos p) pos); [lia |].
Qed.

Lemma pxbuf_lookup_above pos l :
  Forall (fun p => pos < px_pos p) l -> pxbuf_lookup l pos = None.
Proof.
  induction 1 as [| p l Hp _ IH]; simpl; [done |].
  by destruct (Z.eqb_spec (px_pos p) pos); [lia |].
Qed.

Lemma ascending_tail_above p l pos :
  ascending (p :: l) -> pos <= px_pos p -> Forall (fun q => pos < px_pos q) l.
Proof.
  intros H Hp. apply StronglySorted_cons in H as [Hall _].
  eapply Forall_impl; [exact Hall |]. simpl. intros q Hq. lia.
Qed.

Lemma ascending_tail p l : ascending (p :: l) -> ascending l.
Proof. intros H. by apply StronglySorted_cons in H as [_ H]. Qed.

(** On ascending cells the early exit of [pxbuf_exists] loses nothing. *)
Lemma exists_scan_sorted pos (suf : list pxl) : forall pre,
  ascending suf ->
  exists_scan (length suf) (Z.of_nat (length pre)) (pre ++ suf) pos =
  Some (match pxbuf_lookup suf pos with Some _ => true | None => false end).
Proof.
  induction suf as [| p suf IH]; intros pre Hasc; [done |].
  simpl exists_scan. rewrite (rd_at _ pre p suf) by done. simpl pxbuf_lookup.
  destruct (Z.eqb_spec (px_pos p) pos) as [He | He]; [done |].
  destruct (Z.gtb_spec (px_pos p) pos) as [Hg | Hg].
  - rewrite pxbuf_lookup_above; [done |].
    apply (ascending_tail_above p); [done | lia].
  - replace (Z.of_nat (length pre) + 1) with (Z.of_nat (length (pre ++ [p])))
      by (rewrite length_app; simpl; lia).
    replace (pre ++ p :: suf) with ((pre ++ [p]) ++ suf) by (by rewrite <- app_assoc).
    apply IH. by apply ascending_tail in Hasc.
Qed.

(** X1.  On a well-formed, sorted buffer [pxbuf_exists] returns true exactly
    for the positions that have a pixel: stopping at the first larger
    position never misses one. *)
Theorem pxbuf_exists_sorted (b : pxbuf) (pos : Z) :
  pxbuf_rep b -> pxbuf_sorted b ->
  pxbuf_exists b pos =
  Some (match pxbuf_lookup (pb_buf b) pos with Some _ => true | None => false end).
Proof.
  intros [Hsize _] Hsorted. unfold pxbuf_exists. rewrite Hsize, Nat2Z.id.
  apply (exists_scan_sorted pos (pb_buf b) []). exact Hsorted.
Qed.

Lemma pxbuf_exists_sorted_witness :
  pxbuf_exists (mkpxbuf 3 [mkpxl 2 red; mkpxl 5 off; mkpxl 9 red]) 5 = Some true /\
  pxbuf_exists (mkpxbuf 3 [mkpxl 2 red; mkpxl 5 off; mkpxl 9 red]) 6 = Some false.
Proof.
  assert (Hrep : pxbuf_rep (mkpxbuf 3 [mkpxl 2 red; mkpxl 5 off; mkpxl 9 red]))
    by (split; simpl; lia).
  assert (Hsorted : pxbuf_sorted (mkpxbuf 3 [mkpxl 2 red; mkpxl 5 off; mkpxl 9 red])).
  { unfold pxbuf_sorted, ascending. simpl.
    repeat (constructor; [| repeat constructor; simpl; lia]). constructor. }
  split.
  - exact (pxbuf_exists_sorted _ 5 Hrep Hsorted).
  - exact (pxbuf_exists_sorted _ 6 Hrep Hsorted).
Defined.

Lemma delete_pos_lookup_same pos l :
  ascending l -> pxbuf_lookup (delete_pos pos l) pos = None.
Proof.
  intros Hasc. induction l as [| p l IH]; simpl; [done |].
  destruct (Z.eqb_spec (px_pos p) pos) as [He | He].
  - apply pxbuf_lookup_above. apply (ascending_tail_above p); [done | lia].
  - simpl. destruct (Z.eqb_spec (px_pos p) pos); [done |].
    apply IH. by apply ascending_tail in Hasc.
Qed.

Lemma delete_pos_lookup_other pos q l :
  q <> pos -> pxbuf_lookup (delete_pos pos l) q = pxbuf_lookup l q.
Proof.
  intros Hq. induction l as [| p l IH]; simpl; [done |].
  destruct (Z.eqb_spec (px_pos p) pos) as [He | He]; simpl.
  - by destruct (Z.eqb_spec (px_pos p) q); [lia |].
  - by rewrite IH.
Qed.

Lemma delete_pos_Forall (P : pxl -> Prop) pos l :
  Forall P l -> Forall P (delete_pos pos l).
Proof.
  induction 1 as [| p l Hp Hl IH]; simpl; [done |].
  destruct (px_pos p =? pos); [done | by constructor].
Qed.

Lemma delete_pos_ascending pos l : ascending l -> ascending (delete_pos pos l).
Proof.
  unfold ascending. induction 1 as [| p l Hl IH Hp]; simpl; [constructor |].
  destruct (px_pos p =? pos); [done |].
  constructor; [done |]. by apply delete_pos_Forall.
Qed.

Lemma delete_pos_absent pos l : pxbuf_lookup l pos = None -> delete_pos pos l = l.
Proof.
  induction l as [| p l IH]; simpl; [done |].
  destruct (px_pos p =? pos); [done |]. intros H. by rewrite IH.
Qed.

Lemma delete_pos_length pos l c :
  pxbuf_lookup l pos = Some c -> S (length (delete_pos pos l)) = length l.
Proof.
  induction l as [| p l IH]; simpl; [done |].
  destruct (px_pos p =? pos); [done |]. intros H. simpl. by rewrite IH.
Qed.

(** The scan of [pxbuf_remove_at] on ascending cells. *)
Lemma remove_at_scan_sorted junk pos (suf : list pxl) : forall pre b,
  pxbuf_rep b -> pb_buf b = pre ++ suf -> ascending suf ->
  remove_at_scan junk (length suf) (Z.of_nat (length pre)) b pos =
  Some (match pxbuf_lookup suf pos with
        | None => (b, false)
        | Some _ => (mkpxbuf (pb_size b - 1) (pre ++ delete_pos pos suf), true)
        end).
Proof.
  induction suf as [| p suf IH]; intros pre b Hrep Hbuf Hasc; [done |].
  simpl remove_at_scan. rewrite Hbuf, (rd_at _ pre p suf) by done.
  simpl pxbuf_lookup. simpl delete_pos.
  destruct (Z.eqb_spec (px_pos p) pos) as [He | He].
  - rewrite pxbuf_remove_spec; [| done | | lia].
    + unfold remove_index. rewrite Nat2Z.id, Hbuf.
      replace (length pre `min` (length (pre ++ p :: suf) - 1))%nat
        with (length pre) by (rewrite length_app; simpl; lia).
      by rewrite delete_middle.
    + destruct Hrep as [-> _]. rewrite Hbuf, length_app. simpl. lia.
  - destruct (Z.gtb_spec (px_pos p) pos) as [Hg | Hg].
    + rewrite pxbuf_lookup_above; [done |].
      apply (ascending_tail_above p); [done | lia].
    + replace (Z.of_nat (length pre) + 1) with (Z.of_nat (length (pre ++ [p])))
        by (rewrite length_app; simpl; lia).
      rewrite (IH (pre ++ [p]) b Hrep);
        [| by rewrite <- app_assoc | by apply ascending_tail in Hasc].
      destruct (pxbuf_lookup suf pos); [| done].
      by rewrite <- app_assoc.
Qed.

(** X2.  On a well-formed, sorted buffer [pxbuf_remove_at] leaves the buffer
    untouched and returns false when [pos] has no pixel; otherwise it returns
    true, [size] goes down by exactly one, [pos] has no pixel afterwards, every
    other position keeps its colour, and the buffer stays well formed and
    sorted. *)
Theorem pxbuf_remove_at_sorted (junk : pxl) (b : pxbuf) (pos : Z) :
  pxbuf_rep b -> pxbuf_sorted b ->
  exists b' r,
    pxbuf_remove_at junk b pos = Some (b', r) /\
    (pxbuf_lookup (pb_buf b) pos = None -> b' = b /\ r = false) /\
    (pxbuf_lookup (pb_buf b) pos <> None ->
       r = true /\ pb_size b' = pb_size b - 1) /\
    pxbuf_lookup (pb_buf b') pos = None /\
    (forall q, q <> pos ->
       pxbuf_lookup (pb_buf b') q = pxbuf_lookup (pb_buf b) q) /\
    pxbuf_rep b' /\ pxbuf_sorted b'.
Proof.
  intros Hrep Hsorted.
  pose proof (remove_at_scan_sorted junk pos (pb_buf b) [] b Hrep eq_refl Hsorted)
    as Hscan.
  destruct Hrep as [Hsize Hmax].
  change (Z.of_nat (length (@nil pxl))) with 0 in Hscan.
  unfold pxbuf_remove_at.
  replace (Z.to_nat (pb_size b)) with (length (pb_buf b)) by lia.
  rewrite Hscan. clear Hscan.
  destruct (pxbuf_lookup (pb_buf b) pos) as [c |] eqn:Hlk.
  - eexists _, _. split; [done |]. simpl.
    split; [done |]. split; [done |].
    split; [by apply delete_pos_lookup_same |].
    split; [intros q Hq; by apply delete_pos_lookup_other |].
    split; [| by apply delete_pos_ascending].
    pose proof (delete_pos_length pos (pb_buf b) c Hlk). split; simpl; lia.
  - exists b, false. split; [done |].
    split; [done |]. split; [done |]. split; [done |].
    split; [done |]. split; [by split | done].
Qed.

Lemma pxbuf_remove_at_sorted_witness :
  exists b' r,
    pxbuf_remove_at (mkpxl 0 off)
      (mkpxbuf 3 [mkpxl 2 red; mkpxl 5 off; mkpxl 9 red]) 5 = Some (b', r) /\
    (pxbuf_lookup [mkpxl 2 red; mkpxl 5 off; mkpxl 9 red] 5 = None ->
       b' = mkpxbuf 3 [mkpxl 2 red; mkpxl 5 off; mkpxl 9 red] /\ r = false) /\
    (pxbuf_lookup [mkpxl 2 red; mkpxl 5 off; mkpxl 9 red] 5 <> None ->
       r = true /\ pb_size b' = 3 - 1) /\
    pxbuf_lookup (pb_buf b') 5 = None /\
    (forall q, q <> 5 ->
       pxbuf_lookup (pb_buf b') q =
       pxbuf_lookup [mkpxl 2 red; mkpxl 5 off; mkpxl 9 red] q) /\
    pxbuf_rep b' /\ pxbuf_sorted b'.
Proof.
  apply (pxbuf_remove_at_sorted (mkpxl 0 off)
           (mkpxbuf 3 [mkpxl 2 red; mkpxl 5 off; mkpxl 9 red]) 5).
  - split; simpl; lia.
  - unfold pxbuf_sorted, ascending. simpl.
    repeat (constructor; [| repeat constructor; simpl; lia]). constructor.
Defined.

(** ** Insertion: what it changes and how it is undone *)

Lemma upsert_lookup_other pos c q l :
  q <> pos -> pxbuf_lookup (upsert pos c l) q = pxbuf_lookup l q.
Proof.
  intros Hq. induction l as [| p l IH]; simpl.
  - by destruct (Z.eqb_spec pos q); [lia |].
  - destruct (Z.eqb_spec (px_pos p) pos) as [He | He]; simpl.
    + destruct (Z.eqb_spec pos q); [lia |].
      by destruct (Z.eqb_spec (px_pos p) q); [lia |].
    + destruct (px_pos p >? pos); simpl.
      * by destruct (Z.eqb_spec pos q); [lia |].
      * by rewrite IH.
Qed.

Lemma upsert_length_absent pos c l :
  pxbuf_lookup l pos = None -> length (upsert pos c l) = S (length l).
Proof.
  induction l as [| p l IH]; simpl; [done |].
  destruct (px_pos p =? pos); [done |]. intros H.
  destruct (px_pos p >? pos); simpl; [done | by rewrite IH].
Qed.

Lemma upsert_length_present pos c c' l :
  ascending l -> pxbuf_lookup l pos = Some c' ->
  length (upsert pos c l) = length l.
Proof.
  intros Hasc. induction l as [| p l IH]; simpl; [done |].
  destruct (Z.eqb_spec (px_pos p) pos) as [He | He]; [done |]. intros H.
  destruct (Z.gtb_spec (px_pos p) pos) as [Hg | Hg].
  - rewrite pxbuf_lookup_above in H; [done |].
    apply (ascending_tail_above p); [done | lia].
  - simpl. rewrite IH; [done | by apply ascending_tail in Hasc | done].
Qed.

Lemma delete_pos_upsert pos c l :
  pxbuf_lookup l pos = None -> delete_pos pos (upsert pos c l) = l.
Proof.
  induction l as [| p l IH]; simpl.
  - by rewrite Z.eqb_refl.
  - destruct (px_pos p =? pos) eqn:He; [done |]. intros H.
    destruct (px_pos p >? pos); simpl.
    + by rewrite Z.eqb_refl.
    + by rewrite He, IH.
Qed.

(** X3.  On a well-formed, sorted buffer that can still grow, [pxbuf_insert]
    stores [c] for [pos] and leaves the colour of every other position as it
    was; [size] grows by one when [pos] had no pixel and stays as it is when it
    had one. *)
Theorem pxbuf_insert_frame (junk : pxl) (b : pxbuf) (pos : Z) (c : RGB_t) :
  pxbuf_rep b -> pxbuf_sorted b -> pb_size b < 65535 ->
  exists b',
    pxbuf_insert junk b pos c = Some b' /\
    pxbuf_lookup (pb_buf b') pos = Some c /\
    (forall q, q <> pos ->
       pxbuf_lookup (pb_buf b') q = pxbuf_lookup (pb_buf b) q) /\
    pb_size b' =
      match pxbuf_lookup (pb_buf b) pos with
      | Some _ => pb_size b
      | None => pb_size b + 1
      end.
Proof.
  intros Hrep Hsorted Hmax.
  destruct (pxbuf_insert_rep junk b pos c Hrep Hmax) as (b' & Hb' & Hbuf & Hrep').
  exists b'. split; [done |]. rewrite Hbuf.
  split; [apply upsert_lookup_eq |].
  split; [intros q Hq; by apply upsert_lookup_other |].
  destruct Hrep as [Hsize _], Hrep' as [Hsize' _]. rewrite Hsize', Hbuf, Hsize.
  destruct (pxbuf_lookup (pb_buf b) pos) as [c' |] eqn:Hlk.
  - by rewrite (upsert_length_present pos c c').
  - rewrite upsert_length_absent by done. lia.
Qed.

Lemma pxbuf_insert_frame_witness :
  exists b',
    pxbuf_insert (mkpxl 0 off) (mkpxbuf 2 [mkpxl 2 red; mkpxl 9 red]) 5 off = Some b' /\
    pxbuf_lookup (pb_buf b') 5 = Some off /\
    (forall q, q <> 5 ->
       pxbuf_lookup (pb_buf b') q = pxbuf_lookup [mkpxl 2 red; mkpxl 9 red] q) /\
    pb_size b' =
      match pxbuf_lookup [mkpxl 2 red; mkpxl 9 red] 5 with
      | Some _ => 2
      | None => 2 + 1
      end.
Proof.
  apply (pxbuf_insert_frame (mkpxl 0 off) (mkpxbuf 2 [mkpxl 2 red; mkpxl 9 red]) 5 off).
  - split; simpl; lia.
  - unfold pxbuf_sorted, ascending. simpl.
    repeat (constructor; [| repeat constructor; simpl; lia]). constructor.
  - simpl. lia.
Defined.

(** X4.  Inserting at a position that has no pixel and removing that position
    again gives back the very buffer one started from, and [pxbuf_remove_at]
    reports the removal. *)
Theorem pxbuf_insert_remove_at (junk : pxl) (b : pxbuf) (pos : Z) (c : RGB_t) :
  pxbuf_rep b -> pxbuf_sorted b -> pb_size b < 65535 ->
  pxbuf_lookup (pb_buf b) pos = None ->
  exists b1,
    pxbuf_insert junk b pos c = Some b1 /\
    pxbuf_remove_at junk b1 pos = Some (b, true).
Proof.
  intros Hrep Hsorted Hmax Habsent.
  destruct (pxbuf_insert_rep junk b pos c Hrep Hmax) as (b1 & Hb1 & Hbuf & Hrep1).
  exists b1. split; [done |].
  assert (Hsorted1 : ascending (pb_buf b1))
    by (rewrite Hbuf; by apply upsert_ascending).
  pose proof (remove_at_scan_sorted junk pos (pb_buf b1) [] b1 Hrep1 eq_refl Hsorted1)
    as Hscan.
  change (Z.of_nat (length (@nil pxl))) with 0 in Hscan.
  unfold pxbuf_remove_at. destruct Hrep1 as [Hsize1 _].
  replace (Z.to_nat (pb_size b1)) with (length (pb_buf b1)) by lia.
  rewrite Hscan. rewrite Hbuf at 1. rewrite upsert_lookup_eq.
  do 2 f_equal. rewrite Hsize1, Hbuf, delete_pos_upsert by done.
  rewrite upsert_length_absent by done.
  destruct Hrep as [Hsize _]. destruct b as [sz l]. simpl in *. f_equal. lia.
Qed.

Lemma pxbuf_insert_remove_at_witness :
  exists b1,
    pxbuf_insert (mkpxl 0 off) (mkpxbuf 2 [mkpxl 2 red; mkpxl 9 red]) 5 off = Some b1 /\
    pxbuf_remove_at (mkpxl 0 off) b1 5 =
      Some (mkpxbuf 2 [mkpxl 2 red; mkpxl 9 red], true).
Proof.
  apply (pxbuf_insert_remove_at (mkpxl 0 off)
           (mkpxbuf 2 [mkpxl 2 red; mkpxl 9 red]) 5 off).
  - split; simpl; lia.
  - unfold pxbuf_sorted, ascending. simpl.
    repeat (constructor; [| repeat constructor; simpl; lia]). constructor.
  - simpl. lia.
  - reflexivity.
Defined.

(** ** What the strip shows *)

Lemma strip_apply_pxbuf_walk order L b :
  pxbuf_rep b ->
  strip_apply_pxbuf order L b =
  Some (PrepTx :: sparse_walk order (Z.to_nat L) 0 (pb_buf b) ++ [EndTx]).
Proof.
  intros Hrep. unfold strip_apply_pxbuf.
  destruct (Z.eqb_spec (pb_size b) 0) as [H0 | H0].
  - destruct Hrep as [Hsize _].
    assert (Hnil : pb_buf b = [])
      by (destruct (pb_buf b); [done | simpl in Hsize; lia]).
    by rewrite Hnil, sparse_walk_nil.
  - pose proof (pxbuf_loop_spec order b Hrep (Z.to_nat L) 0 [] (pb_buf b)) as H.
    simpl in H. change (Z.of_nat 0) with 0 in H. by rewrite H.
Qed.

Lemma sparse_walk_S order n i pending :
  sparse_walk order (S n) i pending =
  match pending with
  | p :: rest =>
      if i =? px_pos p
      then tx_rgb order (px_rgb p) ++ sparse_walk order n (i + 1) rest
      else tx_rgb order off ++ sparse_walk order n (i + 1) pending
  | [] => tx_rgb order off ++ sparse_walk order n (i + 1) []
  end.
Proof. reflexivity. Qed.

(** On ascending pixels that all lie at or after position [i], the walk sends
    for every position the colour stored for it, and black where none is. *)
Lemma sparse_walk_lookup order (n : nat) : forall i pending,
  ascending pending -> Forall (fun p => i <= px_pos p) pending ->
  sparse_walk order n i pending =
  concat ((fun j => tx_rgb order (default off (pxbuf_lookup pending j)))
            <$> seqZ i (Z.of_nat n)).
Proof.
  induction n as [| n IH]; intros i pending Hasc Hfrom; [done |].
  rewrite seqZ_cons by lia.
  replace (Z.pred (Z.of_nat (S n))) with (Z.of_nat n) by lia.
  replace (Z.succ i) with (i + 1) by lia.
  rewrite fmap_cons, sparse_walk_S.
  change (concat (?x :: ?l)) with (x ++ concat l).
  destruct pending as [| p rest].
  - by rewrite (IH (i + 1) []).
  - apply Forall_cons in Hfrom as [Hp Hrest].
    destruct (Z.eqb_spec i (px_pos p)) as [He | He].
    + assert (Hhead : pxbuf_lookup (p :: rest) i = Some (px_rgb p))
        by (simpl; by destruct (Z.eqb_spec (px_pos p) i); [| lia]).
      rewrite Hhead. simpl default. f_equal.
      rewrite (IH (i + 1) rest).
      * f_equal. apply Forall_fmap_ext_1, Forall_forall. intros j Hj.
        apply elem_of_seqZ in Hj. simpl.
        by destruct (Z.eqb_spec (px_pos p) j); [lia |].
      * by apply ascending_tail in Hasc.
      * eapply Forall_impl; [apply (ascending_tail_above p rest i Hasc); lia |].
        simpl. intros q Hq. lia.
    + assert (Hhead : pxbuf_lookup (p :: rest) i = None).
      { simpl. destruct (Z.eqb_spec (px_pos p) i); [lia |].
        apply pxbuf_lookup_above.
        apply (ascending_tail_above p); [done | lia]. }
      rewrite Hhead. simpl default. f_equal.
      apply (IH (i + 1) (p :: rest)); [done |].
      constructor; [lia |].
      apply StronglySorted_cons in Hasc as [Hall _].
      eapply Forall_impl; [exact Hall |]. simpl. intros q Hq. lia.
Qed.

(** X5.  For a well-formed, sorted buffer of pixels at positions from 0 on,
    [strip_apply_pxbuf] sends, between one begin and one end of transmission,
    one pixel for each of the positions 0 .. [strip_size - 1]: the colour
    stored for the position, black where none is stored.  Pixels stored at
    [strip_size] or beyond are not shown. *)
Theorem strip_apply_pxbuf_shows_lookup (order : color_order) (L : Z) (b : pxbuf) :
  pxbuf_rep b -> pxbuf_sorted b ->
  Forall (fun p => 0 <= px_pos p) (pb_buf b) -> 0 <= L ->
  strip_apply_pxbuf order L b =
  Some (PrepTx ::
        concat ((fun j => tx_rgb order (default off (pxbuf_lookup (pb_buf b) j)))
                  <$> seqZ 0 L) ++ [EndTx]).
Proof.
  intros Hrep Hsorted Hpos HL.
  rewrite strip_apply_pxbuf_walk by done.
  rewrite (sparse_walk_lookup order (Z.to_nat L) 0 (pb_buf b)) by done.
  by rewrite Z2Nat.id.
Qed.

Lemma strip_apply_pxbuf_shows_lookup_witness :
  strip_apply_pxbuf GRB 3 (mkpxbuf 2 [mkpxl 1 (mkRGB 10 20 30); mkpxl 7 (mkRGB 7 8 9)]) =
  Some (PrepTx ::
        concat ((fun j => tx_rgb GRB
                   (default off
                      (pxbuf_lookup [mkpxl 1 (mkRGB 10 20 30); mkpxl 7 (mkRGB 7 8 9)] j)))
                  <$> seqZ 0 3) ++ [EndTx]).
Proof.
  apply (strip_apply_pxbuf_shows_lookup GRB 3
           (mkpxbuf 2 [mkpxl 1 (mkRGB 10 20 30); mkpxl 7 (mkRGB 7 8 9)])).
  - split; simpl; lia.
  - unfold pxbuf_sorted, ascending. simpl.
    repeat (constructor; [| repeat constructor; simpl; lia]). constructor.
  - repeat constructor; simpl; lia.
  - lia.
Defined.

(** ** Segment buffers *)

(** X6.  [strip_apply_substrpbuf] sends every segment in full: the number of
    pixels sent is the sum of the segment lengths, whatever the length of the
    strip is, so a buffer that adds up to more than the strip is not cut and
    one that adds up to less is not filled up. *)
Theorem strip_apply_substrpbuf_sends_all (order : color_order)
  (segs : list substrp) :
  Forall (fun s => 0 <= ss_length s) segs ->
  strip_apply_substrpbuf order (Z.of_nat (length segs)) segs =
    Some (PrepTx :: segment_bytes order segs ++ [EndTx]) /\
  Z.of_nat (length (segment_bytes order segs)) = 3 * painted segs.
Proof.
  intros Hlen. split; [| by apply segment_bytes_length].
  unfold strip_apply_substrpbuf. rewrite Nat2Z.id.
  pose proof (substrp_loop_spec order segs []) as H.
  simpl in H. change (Z.of_nat 0) with 0 in H. by rewrite H.
Qed.

Lemma strip_apply_substrpbuf_sends_all_witness :
  strip_apply_substrpbuf BGR
    (Z.of_nat (length [mksubstrp 2 red; mksubstrp 0 off; mksubstrp 1 (mkRGB 1 2 3)]))
    [mksubstrp 2 red; mksubstrp 0 off; mksubstrp 1 (mkRGB 1 2 3)] =
    Some (PrepTx ::
          segment_bytes BGR [mksubstrp 2 red; mksubstrp 0 off; mksubstrp 1 (mkRGB 1 2 3)]
          ++ [EndTx]) /\
  Z.of_nat (length (segment_bytes BGR
     [mksubstrp 2 red; mksubstrp 0 off; mksubstrp 1 (mkRGB 1 2 3)])) =
  3 * painted [mksubstrp 2 red; mksubstrp 0 off; mksubstrp 1 (mkRGB 1 2 3)].
Proof.
  apply (strip_apply_substrpbuf_sends_all BGR
           [mksubstrp 2 red; mksubstrp 0 off; mksubstrp 1 (mkRGB 1 2 3)]).
  repeat constructor; simpl; lia.
Defined.

(** X7.  Distributing a single colour is [strip_apply_all]: the one segment
    covers the whole strip, and the calls made are the same, [strip_size]
    pixels of three bytes between begin and end. *)
Theorem distribute_single_is_apply_all (order : color_order) (L : Z)
  (junk : substrp) (rgb : RGB_t) :
  0 <= L < 65536 ->
  strip_distribute_rgb order L junk [rgb] 1 =
    Some ([mksubstrp L rgb], strip_apply_all order L rgb) /\
  Z.of_nat (length (strip_apply_all order L rgb)) = 3 * L + 2.
Proof.
  intros HL. split.
  - unfold strip_distribute_rgb, distribute_build. simpl distribute_loop.
    change (wrap16 (1 - 1)) with 0. simpl Z.eqb. cbv iota.
    rewrite Z.div_1_r, Z.mod_1_r, Z.add_0_r, wrap16_small by lia.
    unfold realloc, wr. simpl.
    unfold strip_apply_substrpbuf, strip_apply_all. simpl.
    by rewrite app_nil_r.
  - unfold strip_apply_all. simpl length.
    rewrite length_app, tx_repeat_length. simpl. lia.
Qed.

Lemma distribute_single_is_apply_all_witness :
  strip_distribute_rgb GRB 5 (mksubstrp 0 off) [mkRGB 1 2 3] 1 =
    Some ([mksubstrp 5 (mkRGB 1 2 3)], strip_apply_all GRB 5 (mkRGB 1 2 3)) /\
  Z.of_nat (length (strip_apply_all GRB 5 (mkRGB 1 2 3))) = 3 * 5 + 2.
Proof.
  apply (distribute_single_is_apply_all GRB 5 (mksubstrp 0 off) (mkRGB 1 2 3)). lia.
Defined.

(** ** The hue wheel *)

Lemma scroll_color_mod k : scroll_color k = scroll_color (k mod 765).
Proof. unfold scroll_color. by rewrite Zmod_mod. Qed.

(** Every position and every step size, checked one by one. *)
Lemma fade_advance_checked :
  forallb (fun k =>
     forallb (fun s =>
        RGB_eqb (rgb_apply_fade (scroll_color (Z.of_nat k)) (Z.of_nat s))
                (scroll_color (wheel_advance (Z.of_nat k) (Z.of_nat s))))
       (seq 0 256))
    (seq 0 765) = true.
Proof. vm_compute. reflexivity. Qed.

Lemma fade_advance_wheel k s :
  0 <= k < 765 -> 0 <= s <= 255 ->
  rgb_apply_fade (scroll_color k) s = scroll_color (wheel_advance k s).
Proof.
  intros Hk Hs. apply RGB_eqb_eq.
  pose proof fade_advance_checked as H.
  rewrite forallb_forall in H.
  specialize (H (Z.to_nat k)). rewrite forallb_forall in H.
  specialize (H ltac:(apply in_seq; lia) (Z.to_nat s) ltac:(apply in_seq; lia)).
  by rewrite !Z2Nat.id in H by lia.
Qed.

(** X8.  On the hue wheel a call of [rgb_apply_fade] moves the colour forward
    by [step_size] positions (by 1 for step size 0), except that a step which
    passes a corner of the wheel (pure red, green or blue, the multiples of
    255) moves it by one position less. *)
Theorem fade_advances_wheel (k s : Z) :
  0 <= k -> 0 <= s <= 255 ->
  rgb_apply_fade (scroll_color k) s =
  scroll_color
    (if (k mod 765) mod 255 + (if s =? 0 then 1 else s) <=? 255
     then k + (if s =? 0 then 1 else s)
     else k + (if s =? 0 then 1 else s) - 1).
Proof.
  intros Hk Hs.
  pose proof (Z.mod_pos_bound k 765 ltac:(lia)) as Hm.
  rewrite (scroll_color_mod k), fade_advance_wheel by lia.
  unfold wheel_advance. cbv zeta.
  set (s' := if s =? 0 then 1 else s).
  rewrite (scroll_color_mod (if _ <=? _ then k + s' else _)).
  destruct (_ <=? 255).
  - rewrite scroll_color_mod. by rewrite Zplus_mod_idemp_l.
  - rewrite scroll_color_mod. f_equal.
    replace (k mod 765 + s' - 1) with (k mod 765 + (s' - 1)) by lia.
    replace (k + s' - 1) with (k + (s' - 1)) by lia.
    by rewrite Zplus_mod_idemp_l.
Qed.

Lemma fade_advances_wheel_witness :
  rgb_apply_fade (scroll_color 250) 10 =
  scroll_color
    (if (250 mod 765) mod 255 + (if 10 =? 0 then 1 else 10) <=? 255
     then 250 + (if 10 =? 0 then 1 else 10)
     else 250 + (if 10 =? 0 then 1 else 10) - 1) /\
  rgb_apply_fade (mkRGB 5 250 0) 10 = mkRGB 0 251 4.
Proof.
  split; [| reflexivity].
  apply (fade_advances_wheel 250 10); lia.
Defined.

Lemma fade_unit_step k :
  0 <= k -> rgb_apply_fade (scroll_color k) 1 = scroll_color (k + 1).
Proof.
  intros Hk.
  pose proof (Z.mod_pos_bound k 765 ltac:(lia)) as Hm.
  rewrite (scroll_color_mod k), fade_advance_wheel by lia.
  unfold wheel_advance. cbv zeta. simpl (1 =? 0).  cbv iota.
  pose proof (Z.mod_pos_bound (k mod 765) 255 ltac:(lia)).
  destruct (Z.leb_spec ((k mod 765) mod 255 + 1) 255); [| lia].
  rewrite scroll_color_mod, Zplus_mod_idemp_l. by rewrite <- scroll_color_mod.
Qed.

Lemma scroll_color_on_wheel k : on_wheel (scroll_color k).
Proof.
  unfold scroll_color. cbv zeta.
  pose proof (Z.mod_pos_bound k 765 ltac:(lia)) as Hm.
  set (v := k mod 765) in *. unfold on_wheel.
  destruct (Z.ltb_spec v (255 + 1)).
  - simpl. rewrite !wrap8_small by lia. lia.
  - destruct (Z.ltb_spec v (2 * 255 + 1)).
    + simpl. rewrite (wrap16_small (v - 255)) by lia.
      rewrite !wrap8_small by lia. lia.
    + simpl. rewrite (wrap16_small (v - 510)) by lia.
      rewrite !wrap8_small by lia. lia.
Qed.

(** X9.  The colour [strip_scroll_rgb] shows for wheel offset [val] is the one
    that [val mod 765] calls of [rgb_apply_fade] with step size 1 reach from
    red; its channels add up to 255 and one of them is 0; at full brightness
    the whole strip is set to it. *)
Theorem scroll_is_unit_fade (order : color_order) (L val : Z) :
  0 <= val ->
  scroll_color val = fade_n (Z.to_nat (val mod 765)) 1 red /\
  on_wheel (scroll_color val) /\
  strip_scroll_rgb order L val 255 =
    strip_apply_all order L (fade_n (Z.to_nat (val mod 765)) 1 red).
Proof.
  intros Hval.
  pose proof (Z.mod_pos_bound val 765 ltac:(lia)) as Hm.
  assert (Heq : scroll_color val = fade_n (Z.to_nat (val mod 765)) 1 red).
  { change red with (scroll_color (Z.of_nat 0)).
    rewrite fade_n_wheel by lia. rewrite (scroll_color_mod val).
    f_equal. lia. }
  split; [done |]. split; [apply scroll_color_on_wheel |].
  unfold strip_scroll_rgb, rgb_apply_brightness. simpl (255 <? 255).
  cbv iota. by rewrite Heq.
Qed.

Lemma scroll_is_unit_fade_witness :
  scroll_color 1000 = fade_n (Z.to_nat (1000 mod 765)) 1 red /\
  on_wheel (scroll_color 1000) /\
  strip_scroll_rgb GRB 4 1000 255 =
    strip_apply_all GRB 4 (fade_n (Z.to_nat (1000 mod 765)) 1 red).
Proof. apply (scroll_is_unit_fade GRB 4 1000). lia. Defined.

Lemma rotate_loop_wheel order (n : nat) : forall k,
  0 <= k ->
  rotate_loop order n 1 (scroll_color k) =
  concat ((fun j => tx_rgb order (scroll_color j)) <$> seqZ k (Z.of_nat n)).
Proof.
  induction n as [| n IH]; intros k Hk; [done |].
  rewrite seqZ_cons by lia.
  replace (Z.pred (Z.of_nat (S n))) with (Z.of_nat n) by lia.
  replace (Z.succ k) with (k + 1) by lia.
  rewrite fmap_cons.
  change (concat (?x :: ?l)) with (x ++ concat l).
  change (rotate_loop order (S n) 1 (scroll_color k))
    with (tx_rgb order (scroll_color k)
          ++ rotate_loop order n 1 (rgb_apply_fade (scroll_color k) 1)).
  rewrite fade_unit_step by done. by rewrite IH by lia.
Qed.

(** X10.  A call of [strip_rotate_rainbow] with step size 1 that is let
    through by the timer moves the stored colour one position along the hue
    wheel and paints the strip with consecutive wheel positions: pixel [i]
    shows the position [i] after the new stored colour.  A call that comes
    too early changes nothing and sends nothing. *)
Theorem rotate_rainbow_gradient (order : color_order) (L delay ms k : Z) :
  0 <= k -> 0 <= L ->
  (delay <= ms ->
   strip_rotate_rainbow order L 1 delay ms (scroll_color k) =
     (scroll_color (k + 1),
      PrepTx ::
      concat ((fun j => tx_rgb order (scroll_color j)) <$> seqZ (k + 1) L)
      ++ [EndTx; ResetTimer])) /\
  (ms < delay ->
   strip_rotate_rainbow order L 1 delay ms (scroll_color k) = (scroll_color k, [])).
Proof.
  intros Hk HL. unfold strip_rotate_rainbow. split; intros Hms.
  - destruct (Z.ltb_spec ms delay); [lia |].
    rewrite fade_unit_step by done.
    rewrite rotate_loop_wheel by lia. by rewrite Z2Nat.id.
  - by destruct (Z.ltb_spec ms delay); [| lia].
Qed.

Lemma rotate_rainbow_gradient_witness :
  (10 <= 12 ->
   strip_rotate_rainbow RGB 3 1 10 12 (scroll_color 254) =
     (scroll_color (254 + 1),
      PrepTx ::
      concat ((fun j => tx_rgb RGB (scroll_color j)) <$> seqZ (254 + 1) 3)
      ++ [EndTx; ResetTimer])) /\
  (12 < 10 ->
   strip_rotate_rainbow RGB 3 1 10 12 (scroll_color 254) = (scroll_color 254, [])).
Proof. apply (rotate_rainbow_gradient RGB 3 10 12 254); lia. Defined.

(** ** Fading over time *)

Lemma accepted_cons_in delay ms mss :
  delay < ms -> accepted delay (ms :: mss) = S (accepted delay mss).
Proof. intros H. unfold accepted. by rewrite filter_cons_True. Qed.

Lemma accepted_cons_out delay ms mss :
  ms <= delay -> accepted delay (ms :: mss) = accepted delay mss.
Proof. intros H. unfold accepted. rewrite filter_cons_False; [done | lia]. Qed.

Lemma strip_fade_gated order L st rgb delay s start ms :
  ms <= delay -> strip_fade order L st rgb delay s start ms = (st, false, []).
Proof. intros H. unfold strip_fade. by destruct (Z.leb_spec ms delay); [| lia]. Qed.

(** A call that is let through at point [j] of the period. *)
Lemma strip_fade_step order L rgb delay s j ms :
  1 <= s <= 32767 -> 0 <= j < 2 * ramp_calls s -> delay < ms ->
  strip_fade order L (wave_state s j) rgb delay s false ms =
  (wave_state s ((j + 1) mod (2 * ramp_calls s)),
   (j + 1) mod (2 * ramp_calls s) =? 0,
   strip_apply_all order L
     (rgb_apply_brightness rgb
        (wrap8 (brightness (wave_state s ((j + 1) mod (2 * ramp_calls s))))))
   ++ [ResetTimer]).
Proof.
  intros Hs Hj Hms. unfold strip_fade.
  destruct (Z.leb_spec ms delay); [lia |].
  destruct (fade_step_wave rgb s j Hs Hj) as [Hst Hr].
  assert (Hout : snd (fst (rgb_apply_brightness_fade (wave_state s j) rgb s false))
                 = rgb_apply_brightness rgb
                     (wrap8 (brightness
                        (fst (fst (rgb_apply_brightness_fade (wave_state s j) rgb s false))))))
    by reflexivity.
  destruct (rgb_apply_brightness_fade (wave_state s j) rgb s false) as [[st' out] r].
  cbn [fst snd] in *. by subst.
Qed.

Lemma strip_fade_calls_wave order L rgb delay s (mss : list Z) :
  1 <= s <= 32767 ->
  forall a : nat,
    strip_fade_calls order L (wave_state s (Z.of_nat a mod (2 * ramp_calls s)))
                     rgb delay s mss =
    wave_state s (Z.of_nat (a + accepted delay mss) mod (2 * ramp_calls s)).
Proof.
  intros Hs. destruct (ramp_calls_spec s ltac:(lia)) as (Hm1 & _).
  induction mss as [| ms mss IH]; intros a.
  - simpl. by rewrite Nat.add_0_r.
  - simpl strip_fade_calls.
    destruct (Z_lt_le_dec delay ms) as [Hin | Hout].
    + rewrite strip_fade_step;
        [| done | apply Z.mod_pos_bound; lia | done].
      rewrite Zplus_mod_idemp_l.
      replace (Z.of_nat a + 1) with (Z.of_nat (S a)) by lia.
      rewrite IH, accepted_cons_in by done. do 2 f_equal. lia.
    + rewrite strip_fade_gated by done.
      by rewrite IH, accepted_cons_out.
Qed.

(** X11.  [strip_fade], called again and again with a step size from 1 to
    255 and [start = false]: a call that comes while the timer reads
    [delay_ms] or less does nothing and returns false; the [k]-th call that
    is let through sets the whole strip to the colour scaled by the triangle
    wave at [k], restarts the timer, and returns true exactly when [k] is a
    multiple of the period [2 * ceil(255 / step_size)]. *)
Theorem strip_fade_cycle (order : color_order) (L : Z) (rgb : RGB_t)
  (delay s : Z) (mss : list Z) (ms : Z) :
  1 <= s <= 255 ->
  (ms <= delay ->
   strip_fade order L (strip_fade_calls order L fade_init rgb delay s mss)
              rgb delay s false ms =
   (strip_fade_calls order L fade_init rgb delay s mss, false, [])) /\
  (delay < ms ->
   strip_fade order L (strip_fade_calls order L fade_init rgb delay s mss)
              rgb delay s false ms =
   (mkfade (Z.of_nat (S (accepted delay mss)) mod (2 * ramp_calls s) <? ramp_calls s)
           (triangle s (Z.of_nat (S (accepted delay mss)))),
    Z.of_nat (S (accepted delay mss)) mod (2 * ramp_calls s) =? 0,
    strip_apply_all order L
      (rgb_apply_brightness rgb (triangle s (Z.of_nat (S (accepted delay mss)))))
    ++ [ResetTimer])).
Proof.
  intros Hs. destruct (ramp_calls_spec s ltac:(lia)) as (Hm1 & _).
  split; intros Hms; [by apply strip_fade_gated |].
  assert (Hinit : fade_init = wave_state s (Z.of_nat 0 mod (2 * ramp_calls s))).
  { rewrite Z.mod_small by lia. symmetry. apply wave_state_0. lia. }
  rewrite Hinit, strip_fade_calls_wave by lia.
  rewrite strip_fade_step; [| lia | apply Z.mod_pos_bound; lia | done].
  rewrite Zplus_mod_idemp_l.
  replace (Z.of_nat (0 + accepted delay mss) + 1)
    with (Z.of_nat (S (accepted delay mss))) by lia.
  rewrite wave_state_triangle by lia. cbn [brightness].
  rewrite wrap8_small by (pose proof (triangle_range s (Z.of_nat (S (accepted delay mss)))); lia).
  done.
Qed.

Lemma strip_fade_cycle_witness :
  (12 <= 10 ->
   strip_fade GRB 2 (strip_fade_calls GRB 2 fade_init (mkRGB 10 20 30) 10 100
                       [11; 3; 50; 10; 11; 12; 99])
              (mkRGB 10 20 30) 10 100 false 12 =
   (strip_fade_calls GRB 2 fade_init (mkRGB 10 20 30) 10 100
      [11; 3; 50; 10; 11; 12; 99], false, [])) /\
  (10 < 12 ->
   strip_fade GRB 2 (strip_fade_calls GRB 2 fade_init (mkRGB 10 20 30) 10 100
                       [11; 3; 50; 10; 11; 12; 99])
              (mkRGB 10 20 30) 10 100 false 12 =
   (mkfade (Z.of_nat (S (accepted 10 [11; 3; 50; 10; 11; 12; 99]))
              mod (2 * ramp_calls 100) <? ramp_calls 100)
           (triangle 100 (Z.of_nat (S (accepted 10 [11; 3; 50; 10; 11; 12; 99])))),
    Z.of_nat (S (accepted 10 [11; 3; 50; 10; 11; 12; 99])) mod (2 * ramp_calls 100) =? 0,
    strip_apply_all GRB 2
      (rgb_apply_brightness (mkRGB 10 20 30)
         (triangle 100 (Z.of_nat (S (accepted 10 [11; 3; 50; 10; 11; 12; 99])))))
    ++ [ResetTimer])).
Proof.
  apply (strip_fade_cycle GRB 2 (mkRGB 10 20 30) 10 100 [11; 3; 50; 10; 11; 12; 99] 12).
  lia.
Defined.

(** ** Brightness scaling *)

Lemma scale_channel_bounds b1 b2 c :
  0 <= c <= 255 -> 0 <= b1 <= b2 -> b2 < 255 ->
  0 <= (2 * b1 * c + 255) / 510 <= (2 * b2 * c + 255) / 510 /\
  (2 * b2 * c + 255) / 510 <= c.
Proof.
  intros Hc Hb1 Hb2.
  split; [split |].
  - apply Z.div_pos; nia.
  - apply Z.div_le_mono; nia.
  - assert ((2 * b2 * c + 255) / 510 < c + 1); [| lia].
    apply Z.div_lt_upper_bound; nia.
Qed.

(** X12.  [rgb_apply_brightness] never brightens a colour and is monotone in
    the brightness: a smaller brightness gives channels that are at most
    those of a larger one, all between 0 and the channels given; brightness
    255 leaves the colour as it is and brightness 0 gives black. *)
Theorem rgb_apply_brightness_monotone (c : RGB_t) (b1 b2 : Z) :
  rgb_valid c -> 0 <= b1 <= b2 -> b2 <= 255 ->
  rgb_le off (rgb_apply_brightness c b1) /\
  rgb_le (rgb_apply_brightness c b1) (rgb_apply_brightness c b2) /\
  rgb_le (rgb_apply_brightness c b2) c /\
  rgb_apply_brightness c 255 = c /\
  rgb_apply_brightness c 0 = off.
Proof.
  intros (Hr & Hg & Hb) Hb1 Hb2.
  assert (H0 : rgb_apply_brightness c 0 = off).
  { unfold rgb_apply_brightness, off. simpl. done. }
  split; [| split; [| split; [| split]]]; [| | | done | done].
  - unfold rgb_apply_brightness, rgb_le, off.
    destruct (Z.ltb_spec b1 255); simpl; [| lia].
    pose proof (scale_channel_bounds b1 b1 (R c)).
    pose proof (scale_channel_bounds b1 b1 (G c)).
    pose proof (scale_channel_bounds b1 b1 (B c)). lia.
  - unfold rgb_apply_brightness, rgb_le.
    destruct (Z.ltb_spec b1 255), (Z.ltb_spec b2 255); simpl; try lia.
    + pose proof (scale_channel_bounds b1 b2 (R c)).
      pose proof (scale_channel_bounds b1 b2 (G c)).
      pose proof (scale_channel_bounds b1 b2 (B c)). lia.
    + pose proof (scale_channel_bounds b1 b1 (R c)).
      pose proof (scale_channel_bounds b1 b1 (G c)).
      pose proof (scale_channel_bounds b1 b1 (B c)). lia.
  - unfold rgb_apply_brightness, rgb_le.
    destruct (Z.ltb_spec b2 255); simpl; [| lia].
    pose proof (scale_channel_bounds b2 b2 (R c)).
    pose proof (scale_channel_bounds b2 b2 (G c)).
    pose proof (scale_channel_bounds b2 b2 (B c)). lia.
Qed.

Lemma rgb_apply_brightness_monotone_witness :
  rgb_le off (rgb_apply_brightness (mkRGB 200 1 255) 100) /\
  rgb_le (rgb_apply_brightness (mkRGB 200 1 255) 100)
         (rgb_apply_brightness (mkRGB 200 1 255) 254) /\
  rgb_le (rgb_apply_brightness (mkRGB 200 1 255) 254) (mkRGB 200 1 255) /\
  rgb_apply_brightness (mkRGB 200 1 255) 255 = mkRGB 200 1 255 /\
  rgb_apply_brightness (mkRGB 200 1 255) 0 = off.
Proof.
  apply (rgb_apply_brightness_monotone (mkRGB 200 1 255) 100 254).
  - unfold rgb_valid; simpl; lia.
  - lia.
  - lia.
Defined.

(** ** The rain effect *)

Lemma rain_decay_unfold junk n i t b :
  rain_decay junk n i t b =
  if i <? pb_size b then
    match n with
    | O => None
    | S n' =>
        match rd (pb_buf b) i with
        | None => None
        | Some p =>
            if is_black (px_rgb p) then
              match pxbuf_remove junk b i with
              | None => None
              | Some b' => rain_decay junk n' (wrap16 (i + 1)) t b'
              end
            else if t then
              match wr (pb_buf b) i (decay_pxl p) with
              | None => None
              | Some l => rain_decay junk n' (wrap16 (i + 1)) t (mkpxbuf (pb_size b) l)
              end
            else rain_decay junk n' (wrap16 (i + 1)) t b
        end
    end
  else Some b.
Proof. by destruct n. Qed.

(** Changing the colour of a pixel keeps the positions ascending. *)
Lemma ascending_recolor pre p p' suf :
  px_pos p' = px_pos p ->
  ascending (pre ++ p :: suf) -> ascending (pre ++ p' :: suf).
Proof.
  intros Hpos. unfold ascending.
  rewrite !StronglySorted_app, !StronglySorted_cons.
  intros (Hcross & Hpre & Hp & Hsuf).
  split; [| split; [done | split; [| done]]].
  - intros x1 x2 Hx1 Hx2. apply elem_of_cons in Hx2 as [-> | Hx2].
    + rewrite Hpos. apply Hcross; [done | left].
    + apply Hcross; [done | by right].
  - eapply Forall_impl; [exact Hp |]. simpl. intros q Hq. lia.
Qed.

Lemma wr_inside {A} (l : list A) i x :
  0 <= i < Z.of_nat (length l) -> wr l i x = Some (<[Z.to_nat i := x]> l).
Proof.
  intros H. unfold wr.
  destruct (Z.leb_spec 0 i); [| lia].
  by destruct (Z.ltb_spec i (Z.of_nat (length l))); [| lia].
Qed.

Lemma rd_inside {A} (l : list A) i :
  0 <= i < Z.of_nat (length l) -> exists x, rd l i = Some x /\ l !! Z.to_nat i = Some x.
Proof.
  intros H. unfold rd. destruct (Z.ltb_spec i 0); [lia |].
  destruct (lookup_lt_is_Some_2 l (Z.to_nat i) ltac:(lia)) as [x Hx]. eauto.
Qed.

(** The decay loop never leaves the block, keeps the buffer well formed and
    sorted, keeps the droplets on the strip and adds none. *)
Lemma rain_decay_safe junk L t (n : nat) : forall i b,
  pxbuf_rep b -> pxbuf_sorted b -> in_strip L (pb_buf b) ->
  0 <= i -> pb_size b - i <= Z.of_nat n ->
  exists b',
    rain_decay junk n i t b = Some b' /\
    pxbuf_rep b' /\ pxbuf_sorted b' /\ in_strip L (pb_buf b') /\
    pb_size b' <= pb_size b.
Proof.
  induction n as [| n IH]; intros i b Hrep Hsorted Hin Hi Hn;
    rewrite rain_decay_unfold.
  - destruct (Z.ltb_spec i (pb_size b)); [lia |].
    exists b. repeat split; (done || apply Hrep || lia).
  - destruct (Z.ltb_spec i (pb_size b)) as [Hlt | Hge].
    2: { exists b. repeat split; (done || apply Hrep || lia). }
    pose proof Hrep as [Hsize Hmax].
    destruct (rd_inside (pb_buf b) i ltac:(lia)) as (p & -> & Hp).
    rewrite (wrap16_small (i + 1)) by lia.
    destruct (is_black (px_rgb p)).
    + destruct (pxbuf_remove_rep junk b i Hrep ltac:(lia) Hi)
        as (b1 & -> & Hbuf1 & Hsize1 & Hrep1).
      destruct (IH (i + 1) b1) as (b' & Hrun & Hrep' & Hsorted' & Hin' & Hle);
        [done | | | lia | lia |].
      * unfold pxbuf_sorted. rewrite Hbuf1. by apply remove_index_ascending.
      * unfold in_strip. rewrite Hbuf1. unfold remove_index. by apply Forall_delete.
      * exists b'. repeat split; (done || apply Hrep' || lia).
    + destruct t.
      * rewrite wr_inside by lia.
        destruct (IH (i + 1) (mkpxbuf (pb_size b) (<[Z.to_nat i := decay_pxl p]> (pb_buf b))))
          as (b' & Hrun & Hrep' & Hsorted' & Hin' & Hle); [| | | lia | simpl; lia |].
        -- split; simpl; [by rewrite length_insert | done].
        -- unfold pxbuf_sorted. simpl.
           rewrite insert_take_drop by lia.
           apply (ascending_recolor _ p); [done |].
           by rewrite take_drop_middle.
        -- unfold in_strip. simpl. apply Forall_insert; [done |].
           apply (Forall_lookup_1 _ _ _ _ Hin Hp).
        -- exists b'. repeat split; (done || apply Hrep' || (simpl in Hle; lia)).
      * destruct (IH (i + 1) b) as (b' & Hrun & Hrep' & Hsorted' & Hin' & Hle);
          [done | done | done | lia | lia |].
        exists b'. repeat split; (done || apply Hrep' || lia).
Qed.

Lemma sparse_walk_length order n : forall i pending,
  length (sparse_walk order n i pending) = (3 * n)%nat.
Proof.
  induction n as [| n IH]; intros i pending; [done |].
  rewrite sparse_walk_S.
  destruct pending as [| p rest]; [| destruct (i =? px_pos p)];
    rewrite length_app, IH; simpl; lia.
Qed.

Lemma upsert_in_strip L pos c l :
  0 <= pos < L -> in_strip L l -> in_strip L (upsert pos c l).
Proof.
  intros Hpos. unfold in_strip. induction 1 as [| p l Hp Hl IH]; simpl.
  - constructor; [done | constructor].
  - destruct (px_pos p =? pos); [by constructor |].
    destruct (px_pos p >? pos).
    + constructor; [done |]. by constructor.
    + by constructor.
Qed.

Lemma decay_list_length t l : (length (decay_list t l) <= length l)%nat.
Proof.
  remember (length l) as n eqn:Hn.
  revert l Hn. induction n as [n IH] using lt_wf_ind. intros l Hn.
  destruct l as [| p [| q rest]]; simpl in *; [lia | |].
  - destruct (is_black (px_rgb p)); simpl; lia.
  - destruct (is_black (px_rgb p)); simpl.
    + pose proof (IH (length rest) ltac:(lia) rest eq_refl). lia.
    + pose proof (IH (S (length rest)) ltac:(lia) (q :: rest) eq_refl).
      simpl in *. lia.
Qed.

(** The decay loop against its list-level description. *)
Lemma rain_decay_spec junk t (n : nat) : forall pre suf b,
  pxbuf_rep b -> pb_buf b = pre ++ suf -> (length suf <= n)%nat ->
  rain_decay junk n (Z.of_nat (length pre)) t b =
  Some (mkpxbuf (Z.of_nat (length (pre ++ decay_list t suf)))
                (pre ++ decay_list t suf)).
Proof.
  induction n as [| n IH]; intros pre suf b Hrep Hbuf Hn;
    rewrite rain_decay_unfold; pose proof Hrep as [Hsize Hmax];
    rewrite Hbuf, length_app in Hsize.
  - destruct suf; [| simpl in Hn; lia]. simpl in *.
    destruct (Z.ltb_spec (Z.of_nat (length pre)) (pb_size b)); [lia |].
    rewrite app_nil_r in *. destruct b as [sz l]. simpl in *. subst l.
    f_equal. f_equal. lia.
  - destruct suf as [| p suf].
    { simpl in *.
      destruct (Z.ltb_spec (Z.of_nat (length pre)) (pb_size b)); [lia |].
      rewrite app_nil_r in *. destruct b as [sz l]. simpl in *. subst l.
      f_equal. f_equal. lia. }
    simpl length in *.
    destruct (Z.ltb_spec (Z.of_nat (length pre)) (pb_size b)); [| lia].
    rewrite Hbuf, rd_middle.
    rewrite (wrap16_small (_ + 1)) by lia.
    replace (Z.of_nat (length pre) + 1) with (Z.of_nat (length (pre ++ [p])))
      by (rewrite length_app; simpl; lia).
    simpl decay_list.
    destruct (is_black (px_rgb p)).
    + rewrite pxbuf_remove_spec by (done || lia).
      unfold remove_index. rewrite Nat2Z.id, Hbuf.
      replace (length pre `min` (length (pre ++ p :: suf) - 1))%nat
        with (length pre) by (rewrite length_app; simpl; lia).
      rewrite delete_middle.
      destruct suf as [| q suf].
      * rewrite rain_decay_unfold. simpl pb_size.
        destruct (Z.ltb_spec (Z.of_nat (length (pre ++ [p]))) (pb_size b - 1)).
        { rewrite length_app in *. simpl in *. lia. }
        rewrite !app_nil_r. f_equal. f_equal. simpl in *. lia.
      * replace (length (pre ++ [p])) with (length (pre ++ [q]))
          by (rewrite !length_app; done).
        rewrite (IH (pre ++ [q]) suf).
        -- by rewrite <- !app_assoc.
        -- split; simpl; [rewrite length_app; simpl in *; lia | lia].
        -- simpl. by rewrite <- app_assoc.
        -- simpl in Hn. lia.
    + destruct t.
      * rewrite wr_middle.
        replace (length (pre ++ [p])) with (length (pre ++ [decay_pxl p]))
          by (rewrite !length_app; done).
        rewrite (IH (pre ++ [decay_pxl p]) suf).
        -- by rewrite <- !app_assoc.
        -- split; simpl; [rewrite length_app; simpl; lia | lia].
        -- simpl. by rewrite <- app_assoc.
        -- lia.
      * rewrite (IH (pre ++ [p]) suf b); [| done | | lia].
        -- by rewrite <- !app_assoc.
        -- by rewrite Hbuf, <- app_assoc.
Qed.

Lemma decay_list_no_black t l :
  Forall (fun p => is_black (px_rgb p) = false) l ->
  decay_list t l = if t then decay_pxl <$> l else l.
Proof.
  induction 1 as [| p l Hp _ IH]; simpl; [by destruct t |].
  rewrite Hp, IH. by destruct t.
Qed.

(** The droplets that the decay loop keeps are droplets of the buffer, with
    their positions. *)
Lemma decay_list_Forall (P : pxl -> Prop) t l :
  (forall p, P p -> P (decay_pxl p)) ->
  Forall P l -> Forall P (decay_list t l).
Proof.
  intros Hdecay. remember (length l) as n eqn:Hn.
  revert l Hn. induction n as [n IH] using lt_wf_ind. intros l Hn Hall.
  destruct l as [| p rest]; [constructor |].
  apply Forall_cons in Hall as [Hp Hrest]. simpl in *.
  destruct (is_black (px_rgb p)).
  - destruct rest as [| q rest']; [constructor |].
    apply Forall_cons in Hrest as [Hq Hrest']. simpl in *.
    constructor; [done |].
    apply (IH (length rest')); [lia | done | done].
  - constructor; [by destruct t; [apply Hdecay |] |].
    apply (IH (length rest)); [lia | done | done].
Qed.

Lemma decay_list_ascending t l : ascending l -> ascending (decay_list t l).
Proof.
  remember (length l) as n eqn:Hn.
  revert l Hn. induction n as [n IH] using lt_wf_ind. intros l Hn Hasc.
  destruct l as [| p rest]; [constructor |].
  apply StronglySorted_cons in Hasc as [Hp Hrest]. simpl in *.
  destruct (is_black (px_rgb p)).
  - destruct rest as [| q rest']; [constructor |].
    apply StronglySorted_cons in Hrest as [Hq Hrest']. simpl in *.
    apply StronglySorted_cons. split.
    + by apply decay_list_Forall.
    + apply (IH (length rest')); [lia | done | done].
  - apply StronglySorted_cons. split.
    + destruct t; by apply decay_list_Forall.
    + apply (IH (length rest)); [lia | done | done].
Qed.

Lemma decay_list_in_strip L t l : in_strip L l -> in_strip L (decay_list t l).
Proof. by apply decay_list_Forall. Qed.

(** The decay loop of one call, run from the front of a well-formed
    buffer. *)
Lemma rain_decay_call junk t b :
  pxbuf_rep b ->
  rain_decay junk (Z.to_nat (pb_size b)) 0 t b =
  Some (mkpxbuf (Z.of_nat (length (decay_list t (pb_buf b))))
                (decay_list t (pb_buf b))).
Proof.
  intros Hrep. pose proof Hrep as [Hsize Hmax].
  pose proof (rain_decay_spec junk t (Z.to_nat (pb_size b))
                [] (pb_buf b) b Hrep eq_refl ltac:(lia)) as Hrun.
  change (Z.of_nat (length (@nil pxl))) with 0 in Hrun. by simpl app in Hrun.
Qed.

Lemma decay_list_rep t b :
  pxbuf_rep b ->
  pxbuf_rep (mkpxbuf (Z.of_nat (length (decay_list t (pb_buf b))))
                     (decay_list t (pb_buf b))).
Proof.
  intros [Hsize Hmax]. pose proof (decay_list_length t (pb_buf b)).
  split; simpl; lia.
Qed.

(** The search of [strip_rain] for the drawn position, on a sorted buffer. *)
Lemma pxbuf_exists_lookup b pos :
  pxbuf_rep b -> pxbuf_sorted b ->
  pxbuf_exists b pos =
  Some (match pxbuf_lookup (pb_buf b) pos with Some _ => true | None => false end).
Proof.
  intros [Hsize Hmax] Hsorted. unfold pxbuf_exists.
  replace (Z.to_nat (pb_size b)) with (length (pb_buf b)) by lia.
  pose proof (exists_scan_sorted pos (pb_buf b) [] Hsorted) as Hex.
  change (Z.of_nat (length (@nil pxl))) with 0 in Hex. by simpl app in Hex.
Qed.

(** One call of [strip_rain], in terms of the droplets: the decay, then a new
    droplet if one is due, fits and falls on a free position. *)
Lemma strip_rain_spec order L junk rgb
  max_drops min_t max_t delay ms1 ms2 ms3 ms4 rand1 rand2 b wait_until :
  pxbuf_rep b -> pxbuf_sorted b ->
  1 <= L -> max_drops <= 65535 ->
  wrap16 (wrap16 (max_t - min_t) + 1) <> 0 ->
  strip_rain order L junk rgb max_drops min_t max_t delay
             ms1 ms2 ms3 ms4 rand1 rand2 b wait_until =
  if (ms3 >=? wrap16 (rand1 mod wrap16 (wrap16 (max_t - min_t) + 1) + min_t))
     && (Z.of_nat (length (decay_list (ms1 >=? wait_until) (pb_buf b)))
           <? max_drops)
     && (match pxbuf_lookup (decay_list (ms1 >=? wait_until) (pb_buf b))
                 (rand2 mod L) with
         | Some _ => false
         | None => true
         end)
  then
    Some (mkpxbuf
            (Z.of_nat (length (decay_list (ms1 >=? wait_until) (pb_buf b))) + 1)
            (upsert (rand2 mod L) rgb
               (decay_list (ms1 >=? wait_until) (pb_buf b))),
          (if wrap16 ms4 <?
                (if ms1 >=? wait_until then wrap16 (ms2 + delay) else wait_until)
           then wrap16 ((if ms1 >=? wait_until then wrap16 (ms2 + delay)
                         else wait_until) - wrap16 ms4)
           else 0),
          ResetTimer :: PrepTx ::
          sparse_walk order (Z.to_nat L) 0
            (upsert (rand2 mod L) rgb
               (decay_list (ms1 >=? wait_until) (pb_buf b))) ++ [EndTx])
  else
    Some (mkpxbuf
            (Z.of_nat (length (decay_list (ms1 >=? wait_until) (pb_buf b))))
            (decay_list (ms1 >=? wait_until) (pb_buf b)),
          (if ms1 >=? wait_until then wrap16 (ms2 + delay) else wait_until),
          PrepTx ::
          sparse_walk order (Z.to_nat L) 0
            (decay_list (ms1 >=? wait_until) (pb_buf b)) ++ [EndTx]).
Proof.
  intros Hrep Hsorted HL Hmax Hspan. unfold strip_rain.
  rewrite rain_decay_call by done.
  set (dl := decay_list (ms1 >=? wait_until) (pb_buf b)).
  assert (Hrep1 : pxbuf_rep (mkpxbuf (Z.of_nat (length dl)) dl))
    by (by apply decay_list_rep).
  assert (Hasc : ascending dl) by (by apply decay_list_ascending).
  destruct (Z.eqb_spec (wrap16 (wrap16 (max_t - min_t) + 1)) 0); [done |].
  cbn [pb_size].
  destruct ((ms3 >=? _) && (Z.of_nat (length dl) <? max_drops)) eqn:Hgo;
    cbn [andb].
  2: { by rewrite strip_apply_pxbuf_walk. }
  apply andb_true_iff in Hgo as [_ Hroom]. apply Z.ltb_lt in Hroom.
  destruct (Z.eqb_spec L 0); [lia |].
  rewrite pxbuf_exists_lookup by done. cbn [pb_buf].
  destruct (pxbuf_lookup dl (rand2 mod L)) eqn:Hlook.
  - by rewrite strip_apply_pxbuf_walk.
  - pose proof (upsert_length_absent (rand2 mod L) rgb dl Hlook) as Hlen.
    rewrite pxbuf_insert_spec by (done || (cbn [pb_buf]; lia)).
    cbn [pb_buf].
    rewrite strip_apply_pxbuf_walk by (split; simpl; lia).
    cbn [pb_buf]. rewrite Hlen. do 4 f_equal. lia.
Qed.

(** X13.  One call of [strip_rain] on a well-formed, sorted droplet buffer
    whose droplets lie on the strip: whatever the timer and [rand()] return,
    the call stays inside the buffer's block and returns; the buffer is again
    well formed and sorted with all droplets on the strip; a buffer of at most
    [max_drops] droplets still has at most [max_drops]; what is sent is the
    projection of the new buffer, one frame of [strip_size] pixels; and the
    timer is restarted exactly when a droplet was added: either the new
    buffer holds the droplets that the decay loop left and the frame is all
    that happens, or the drawn position was free among them, the new buffer
    holds one droplet more, the new one at the drawn position in the full
    colour, and the timer is restarted before the frame. *)
Theorem strip_rain_safe (order : color_order) (L : Z) (junk : pxl) (rgb : RGB_t)
  (max_drops min_t max_t delay ms1 ms2 ms3 ms4 rand1 rand2 : Z)
  (b : pxbuf) (wait_until : Z) :
  pxbuf_rep b -> pxbuf_sorted b -> in_strip L (pb_buf b) ->
  1 <= L -> max_drops <= 65535 -> 0 <= rand2 ->
  wrap16 (wrap16 (max_t - min_t) + 1) <> 0 ->
  exists b' w' ev frame,
    strip_rain order L junk rgb max_drops min_t max_t delay
               ms1 ms2 ms3 ms4 rand1 rand2 b wait_until = Some (b', w', ev) /\
    pxbuf_rep b' /\ pxbuf_sorted b' /\ in_strip L (pb_buf b') /\
    (pb_size b <= max_drops -> pb_size b' <= max_drops) /\
    strip_apply_pxbuf order L b' = Some frame /\
    length frame = (3 * Z.to_nat L + 2)%nat /\
    ((pb_buf b' = decay_list (ms1 >=? wait_until) (pb_buf b) /\
      pb_size b' =
        Z.of_nat (length (decay_list (ms1 >=? wait_until) (pb_buf b))) /\
      ev = frame) \/
     (pxbuf_lookup (decay_list (ms1 >=? wait_until) (pb_buf b)) (rand2 mod L)
        = None /\
      pb_buf b' =
        upsert (rand2 mod L) rgb (decay_list (ms1 >=? wait_until) (pb_buf b)) /\
      pxbuf_lookup (pb_buf b') (rand2 mod L) = Some rgb /\
      pb_size b' =
        Z.of_nat (length (decay_list (ms1 >=? wait_until) (pb_buf b))) + 1 /\
      ev = ResetTimer :: frame)).
Proof.
  intros Hrep Hsorted Hin HL Hmax Hrand Hspan.
  rewrite strip_rain_spec by done.
  set (dl := decay_list (ms1 >=? wait_until) (pb_buf b)).
  pose proof (decay_list_rep (ms1 >=? wait_until) b Hrep) as Hrep1.
  fold dl in Hrep1.
  assert (Hasc : ascending dl) by (by apply decay_list_ascending).
  assert (Hin1 : in_strip L dl) by (by apply decay_list_in_strip).
  pose proof (decay_list_length (ms1 >=? wait_until) (pb_buf b)) as Hlen.
  fold dl in Hlen.
  pose proof (Z.mod_pos_bound rand2 L ltac:(lia)) as Hpos.
  assert (Hframe : forall l,
            length (PrepTx :: sparse_walk order (Z.to_nat L) 0 l ++ [EndTx]) =
            (3 * Z.to_nat L + 2)%nat).
  { intros l. simpl. rewrite length_app, sparse_walk_length. simpl. lia. }
  destruct ((ms3 >=? _) && (Z.of_nat (length dl) <? max_drops)) eqn:Hgo;
    cbn [andb].
  1: destruct (pxbuf_lookup dl (rand2 mod L)) eqn:Hlook.
  2: { apply andb_true_iff in Hgo as [_ Hroom]. apply Z.ltb_lt in Hroom.
       pose proof (upsert_length_absent (rand2 mod L) rgb dl Hlook) as Hlen2.
       assert (Hrep2 : pxbuf_rep (mkpxbuf (Z.of_nat (length dl) + 1)
                                          (upsert (rand2 mod L) rgb dl)))
         by (split; simpl; lia).
       eexists _, _, _, _. split; [done |].
       split; [done |].
       split; [by apply upsert_ascending |].
       split; [by apply upsert_in_strip |].
       split; [simpl; lia |].
       split; [by apply strip_apply_pxbuf_walk |].
       split; [apply Hframe |].
       right. cbn [pb_buf pb_size].
       split; [done |]. split; [done |].
       split; [apply upsert_lookup_eq |]. done. }
  all: eexists _, _, _, _; (split; [done |]);
    (split; [done |]); (split; [done |]); (split; [done |]);
    (split; [destruct Hrep; simpl; lia |]);
    (split; [by apply strip_apply_pxbuf_walk |]);
    (split; [apply Hframe |]); by left.
Qed.

(** A buffer of two droplets, the first of them black, on a strip of eight
    pixels wired green, red, blue: the black droplet is removed, the one
    behind it is passed over, a droplet of colour (30, 0, 0) is added at
    position 13 mod 8 = 5, and the timer is restarted before the frame. *)
Lemma strip_rain_safe_witness :
  (exists b' w' ev frame,
     strip_rain GRB 8 (mkpxl 0 off) (mkRGB 30 0 0) 3 100 500 20
                25 26 400 401 7 13
                (mkpxbuf 2 [mkpxl 1 (mkRGB 0 0 0); mkpxl 6 (mkRGB 9 0 2)]) 10
       = Some (b', w', ev) /\
     pxbuf_rep b' /\ pxbuf_sorted b' /\ in_strip 8 (pb_buf b') /\
     (pb_size (mkpxbuf 2 [mkpxl 1 (mkRGB 0 0 0); mkpxl 6 (mkRGB 9 0 2)]) <= 3 ->
      pb_size b' <= 3) /\
     strip_apply_pxbuf GRB 8 b' = Some frame /\
     length frame = (3 * Z.to_nat 8 + 2)%nat /\
     ((pb_buf b' =
         decay_list (25 >=? 10)
           (pb_buf (mkpxbuf 2 [mkpxl 1 (mkRGB 0 0 0); mkpxl 6 (mkRGB 9 0 2)])) /\
       pb_size b' =
         Z.of_nat (length (decay_list (25 >=? 10)
           (pb_buf (mkpxbuf 2 [mkpxl 1 (mkRGB 0 0 0); mkpxl 6 (mkRGB 9 0 2)])))) /\
       ev = frame) \/
      (pxbuf_lookup
         (decay_list (25 >=? 10)
            (pb_buf (mkpxbuf 2 [mkpxl 1 (mkRGB 0 0 0); mkpxl 6 (mkRGB 9 0 2)])))
         (13 mod 8) = None /\
       pb_buf b' =
         upsert (13 mod 8) (mkRGB 30 0 0)
           (decay_list (25 >=? 10)
              (pb_buf (mkpxbuf 2 [mkpxl 1 (mkRGB 0 0 0); mkpxl 6 (mkRGB 9 0 2)]))) /\
       pxbuf_lookup (pb_buf b') (13 mod 8) = Some (mkRGB 30 0 0) /\
       pb_size b' =
         Z.of_nat (length (decay_list (25 >=? 10)
           (pb_buf (mkpxbuf 2 [mkpxl 1 (mkRGB 0 0 0); mkpxl 6 (mkRGB 9 0 2)]))))
         + 1 /\
       ev = ResetTimer :: frame))) /\
  strip_rain GRB 8 (mkpxl 0 off) (mkRGB 30 0 0) 3 100 500 20
             25 26 400 401 7 13
             (mkpxbuf 2 [mkpxl 1 (mkRGB 0 0 0); mkpxl 6 (mkRGB 9 0 2)]) 10 =
    Some (mkpxbuf 2 [mkpxl 5 (mkRGB 30 0 0); mkpxl 6 (mkRGB 9 0 2)],
          0,
          [ResetTimer; PrepTx;
           TxByte 0; TxByte 0; TxByte 0;   TxByte 0; TxByte 0; TxByte 0;
           TxByte 0; TxByte 0; TxByte 0;   TxByte 0; TxByte 0; TxByte 0;
           TxByte 0; TxByte 0; TxByte 0;   TxByte 0; TxByte 30; TxByte 0;
           TxByte 0; TxByte 9; TxByte 2;   TxByte 0; TxByte 0; TxByte 0;
           EndTx]).
Proof.
  split; [| reflexivity].
  apply (strip_rain_safe GRB 8 (mkpxl 0 off) (mkRGB 30 0 0) 3 100 500 20
           25 26 400 401 7 13
           (mkpxbuf 2 [mkpxl 1 (mkRGB 0 0 0); mkpxl 6 (mkRGB 9 0 2)]) 10).
  - split; simpl; lia.
  - unfold pxbuf_sorted, ascending. simpl.
    repeat (constructor; [| repeat constructor; simpl; lia]). constructor.
  - repeat constructor; simpl; lia.
  - lia.
  - lia.
  - lia.
  - vm_compute. discriminate.
Defined.

(** X14.  Every call of [strip_rain] on a well-formed, sorted droplet buffer,
    on a strip of at least one pixel.  First the decay: walking the droplets
    from the front, a black droplet is removed and the droplet that follows
    it is passed over for this call; every other droplet loses one from each
    non-zero channel if the timer has reached [wait_until], and is left alone
    otherwise; [wait_until] is set again only in the first case.  A droplet
    is then added exactly when the drawn interval has passed, the decayed
    buffer holds fewer than [max_drops] droplets and the drawn position
    [rand2 mod strip_size] is free in it: the droplet is inserted at its
    place in the full colour, [wait_until] is reduced by the timer reading,
    down to 0, and the timer is restarted.  In each of the three other cases
    (no droplet due, the buffer full, the position taken) the buffer is the
    decayed one and nothing but the frame is sent.  The strip is painted from
    the new buffer.  When no droplet is black the decay is a decay of all
    droplets or no change at all. *)
Theorem strip_rain_decay (order : color_order) (L : Z) (junk : pxl) (rgb : RGB_t)
  (max_drops min_t max_t delay ms1 ms2 ms3 ms4 rand1 rand2 : Z)
  (b : pxbuf) (wait_until : Z) :
  pxbuf_rep b -> pxbuf_sorted b ->
  1 <= L -> max_drops <= 65535 -> 0 <= rand2 ->
  wrap16 (wrap16 (max_t - min_t) + 1) <> 0 ->
  strip_rain order L junk rgb max_drops min_t max_t delay
             ms1 ms2 ms3 ms4 rand1 rand2 b wait_until =
    (if (ms3 >=? wrap16 (rand1 mod wrap16 (wrap16 (max_t - min_t) + 1) + min_t))
        && (Z.of_nat (length (decay_list (ms1 >=? wait_until) (pb_buf b)))
              <? max_drops)
        && (match pxbuf_lookup (decay_list (ms1 >=? wait_until) (pb_buf b))
                    (rand2 mod L) with
            | Some _ => false
            | None => true
            end)
     then
       Some (mkpxbuf
               (Z.of_nat (length (decay_list (ms1 >=? wait_until) (pb_buf b)))
                + 1)
               (upsert (rand2 mod L) rgb
                  (decay_list (ms1 >=? wait_until) (pb_buf b))),
             (if wrap16 ms4 <?
                   (if ms1 >=? wait_until then wrap16 (ms2 + delay)
                    else wait_until)
              then wrap16 ((if ms1 >=? wait_until then wrap16 (ms2 + delay)
                            else wait_until) - wrap16 ms4)
              else 0),
             ResetTimer :: PrepTx ::
             sparse_walk order (Z.to_nat L) 0
               (upsert (rand2 mod L) rgb
                  (decay_list (ms1 >=? wait_until) (pb_buf b))) ++ [EndTx])
     else
       Some (mkpxbuf
               (Z.of_nat (length (decay_list (ms1 >=? wait_until) (pb_buf b))))
               (decay_list (ms1 >=? wait_until) (pb_buf b)),
             (if ms1 >=? wait_until then wrap16 (ms2 + delay) else wait_until),
             PrepTx ::
             sparse_walk order (Z.to_nat L) 0
               (decay_list (ms1 >=? wait_until) (pb_buf b)) ++ [EndTx])) /\
  (Forall (fun p => is_black (px_rgb p) = false) (pb_buf b) ->
   decay_list (ms1 >=? wait_until) (pb_buf b) =
   if ms1 >=? wait_until then decay_pxl <$> pb_buf b else pb_buf b).
Proof.
  intros Hrep Hsorted HL Hmax Hrand Hspan.
  split; [by apply strip_rain_spec | apply decay_list_no_black].
Qed.

(** A buffer of three droplets, the first two black, and room for a third
    droplet that is due: the first droplet is removed, the second is passed
    over, the third decays from (9, 0, 2) to (8, 0, 1); the drawn position
    14 mod 8 = 6 is taken, so no droplet is added and the timer is not
    restarted. *)
Lemma strip_rain_decay_witness :
  strip_rain GRB 8 (mkpxl 0 off) (mkRGB 30 0 0) 3 100 500 20
             25 26 400 401 7 14
             (mkpxbuf 3 [mkpxl 1 (mkRGB 0 0 0); mkpxl 4 (mkRGB 0 0 0);
                         mkpxl 6 (mkRGB 9 0 2)]) 10 =
    Some (mkpxbuf 2 [mkpxl 4 (mkRGB 0 0 0); mkpxl 6 (mkRGB 8 0 1)],
          46,
          [PrepTx;
           TxByte 0; TxByte 0; TxByte 0;   TxByte 0; TxByte 0; TxByte 0;
           TxByte 0; TxByte 0; TxByte 0;   TxByte 0; TxByte 0; TxByte 0;
           TxByte 0; TxByte 0; TxByte 0;   TxByte 0; TxByte 0; TxByte 0;
           TxByte 0; TxByte 8; TxByte 1;   TxByte 0; TxByte 0; TxByte 0;
           EndTx]).
Proof.
  assert (Hrep : pxbuf_rep (mkpxbuf 3 [mkpxl 1 (mkRGB 0 0 0); mkpxl 4 (mkRGB 0 0 0);
                                       mkpxl 6 (mkRGB 9 0 2)]))
    by (split; simpl; lia).
  assert (Hsorted : pxbuf_sorted (mkpxbuf 3 [mkpxl 1 (mkRGB 0 0 0);
                                             mkpxl 4 (mkRGB 0 0 0);
                                             mkpxl 6 (mkRGB 9 0 2)])).
  { unfold pxbuf_sorted, ascending. simpl.
    repeat (constructor; [| repeat constructor; simpl; lia]). constructor. }
  assert (Hspan : wrap16 (wrap16 (500 - 100) + 1) <> 0) by (vm_compute; discriminate).
  etrans.
  - exact (proj1 (strip_rain_decay GRB 8 (mkpxl 0 off) (mkRGB 30 0 0) 3 100 500 20
                    25 26 400 401 7 14 _ 10 Hrep Hsorted
                    ltac:(lia) ltac:(lia) ltac:(lia) Hspan)).
  - reflexivity.
Defined.

Lemma decay_channel_max v k :
  0 <= v <= 255 -> 0 <= k ->
  decay_channel (Z.max 0 (v - k)) = Z.max 0 (v - (k + 1)).
Proof.
  intros Hv Hk. unfold decay_channel.
  destruct (Z.eqb_spec (Z.max 0 (v - k)) 0); [lia |].
  rewrite wrap8_small by lia. lia.
Qed.

(** X15.  The life of a droplet: after [k] decay steps every channel is the
    original one less [k], but not below 0, so the droplet is black exactly
    from step max(R, G, B) on (and is removed by the call after that). *)
Theorem droplet_decay_steps (c : RGB_t) (k : nat) :
  rgb_valid c ->
  Nat.iter k decay_rgb c =
    mkRGB (Z.max 0 (R c - Z.of_nat k)) (Z.max 0 (G c - Z.of_nat k))
          (Z.max 0 (B c - Z.of_nat k)) /\
  (is_black (Nat.iter k decay_rgb c) = true <->
   Z.max (R c) (Z.max (G c) (B c)) <= Z.of_nat k).
Proof.
  intros (Hr & Hg & Hb).
  assert (Hiter : Nat.iter k decay_rgb c =
                  mkRGB (Z.max 0 (R c - Z.of_nat k)) (Z.max 0 (G c - Z.of_nat k))
                        (Z.max 0 (B c - Z.of_nat k))).
  { induction k as [| k IH].
    - simpl. destruct c as [r g b']. simpl in *. f_equal; lia.
    - simpl Nat.iter. rewrite IH. unfold decay_rgb. cbn [R G B].
      rewrite !decay_channel_max by lia.
      replace (Z.of_nat (S k)) with (Z.of_nat k + 1) by lia. done. }
  split; [done |]. rewrite Hiter. unfold is_black. cbn [R G B].
  rewrite !andb_true_iff, !Z.eqb_eq. lia.
Qed.

Lemma droplet_decay_steps_witness :
  Nat.iter 30 decay_rgb (mkRGB 30 0 0) =
    mkRGB (Z.max 0 (30 - Z.of_nat 30)) (Z.max 0 (0 - Z.of_nat 30))
          (Z.max 0 (0 - Z.of_nat 30)) /\
  (is_black (Nat.iter 30 decay_rgb (mkRGB 30 0 0)) = true <->
   Z.max 30 (Z.max 0 0) <= Z.of_nat 30).
Proof.
  apply (droplet_decay_steps (mkRGB 30 0 0) 30). unfold rgb_valid. simpl. lia.
Defined.

(** ** Removal by index, and the dense array on short strips *)

(** X16.  On a well-formed buffer that holds a pixel, [pxbuf_remove] returns
    and leaves [size - 1] pixels in their order: without the one at [index]
    when there is one, and without the last one when [index] is past the
    end. *)
Theorem pxbuf_remove_index (junk : pxl) (b : pxbuf) (index : Z) :
  pxbuf_rep b -> 0 < pb_size b -> 0 <= index ->
  exists b',
    pxbuf_remove junk b index = Some b' /\
    pb_size b' = pb_size b - 1 /\ pxbuf_rep b' /\
    (index < pb_size b -> pb_buf b' = delete (Z.to_nat index) (pb_buf b)) /\
    (pb_size b <= index -> pb_buf b' = take (length (pb_buf b) - 1) (pb_buf b)).
Proof.
  intros Hrep Hne Hidx.
  destruct (pxbuf_remove_rep junk b index Hrep Hne Hidx)
    as (b' & Hrun & Hbuf & Hsize & Hrep').
  exists b'. split; [done |]. split; [done |]. split; [done |].
  destruct Hrep as [Hlen _]. rewrite Hbuf. unfold remove_index.
  split; intros H.
  - by replace (Z.to_nat index `min` (length (pb_buf b) - 1))%nat
      with (Z.to_nat index) by lia.
  - replace (Z.to_nat index `min` (length (pb_buf b) - 1))%nat
      with (length (pb_buf b) - 1)%nat by lia.
    rewrite delete_take_drop.
    rewrite (drop_ge _ (S _)) by lia. by rewrite app_nil_r.
Qed.

Lemma pxbuf_remove_index_witness :
  exists b',
    pxbuf_remove (mkpxl 0 off) (mkpxbuf 3 [mkpxl 2 red; mkpxl 5 off; mkpxl 9 red]) 7
      = Some b' /\
    pb_size b' = 3 - 1 /\ pxbuf_rep b' /\
    (7 < 3 -> pb_buf b' = delete (Z.to_nat 7) [mkpxl 2 red; mkpxl 5 off; mkpxl 9 red]) /\
    (3 <= 7 ->
     pb_buf b' = take (length [mkpxl 2 red; mkpxl 5 off; mkpxl 9 red] - 1)
                      [mkpxl 2 red; mkpxl 5 off; mkpxl 9 red]).
Proof.
  apply (pxbuf_remove_index (mkpxl 0 off)
           (mkpxbuf 3 [mkpxl 2 red; mkpxl 5 off; mkpxl 9 red]) 7).
  - split; simpl; lia.
  - simpl. lia.
  - lia.
Defined.

(** X17.  For an array of at most 255 colours and a strip of that many
    pixels, [strip_apply_RGBbuf] returns after one pass: it sends the three
    bytes of every entry, in the order of the array, between one begin and
    one end of transmission. *)
Theorem strip_apply_RGBbuf_short (order : color_order) (RGBbuf : list RGB_t) :
  (length RGBbuf <= 255)%nat ->
  strip_apply_RGBbuf order (Z.of_nat (length RGBbuf)) (S (length RGBbuf)) RGBbuf =
    (Returned, PrepTx :: concat (tx_rgb order <$> RGBbuf) ++ [EndTx]) /\
  length (concat (tx_rgb order <$> RGBbuf)) = (3 * length RGBbuf)%nat.
Proof.
  intros Hlen. split; [by apply strip_apply_RGBbuf_small |].
  clear Hlen. induction RGBbuf as [| c l IH]; [done |].
  rewrite fmap_cons. change (concat (?x :: ?k)) with (x ++ concat k).
  rewrite length_app, IH. simpl. lia.
Qed.

Lemma strip_apply_RGBbuf_short_witness :
  strip_apply_RGBbuf BRG (Z.of_nat (length [mkRGB 1 2 3; mkRGB 4 5 6]))
    (S (length [mkRGB 1 2 3; mkRGB 4 5 6])) [mkRGB 1 2 3; mkRGB 4 5 6] =
    (Returned, PrepTx :: concat (tx_rgb BRG <$> [mkRGB 1 2 3; mkRGB 4 5 6]) ++ [EndTx]) /\
  length (concat (tx_rgb BRG <$> [mkRGB 1 2 3; mkRGB 4 5 6])) =
    (3 * length [mkRGB 1 2 3; mkRGB 4 5 6])%nat.
Proof.
  apply (strip_apply_RGBbuf_short BRG [mkRGB 1 2 3; mkRGB 4 5 6]). simpl. lia.
Defined.
